(** * sandbox_launcher: change tracking and overlay lifecycle

    A shallow embedding of [sandbox_launcher.py]: the hasher
    ([hash_file], [merkle_hash]), the snapshotter ([snapshot_directory]),
    the change reporter ([diff_hashes], [diff_snapshots]), the overlay
    manager ([prepare_overlays], [cleanup_overlays]) and the orchestration
    in [main].

    Modelling choices:
    - file names and file contents are byte strings; [hashlib.sha256] is
      SHA-256 itself, so that digests can be evaluated;
    - the file system is one tree of regular files and directories; a
      directory lists its entries in the order the operating system
      enumerates them; symbolic links are not followed and writes go to the
      place named, so what is said about copies is said about roots that
      hold no symbolic links;
    - an entry that the walk lists as a file need not be readable (a
      symbolic link to nothing, a file of another user): whether [open]
      raises on it is a function of the current state, like the answers of
      the external programs; the functions [hash_file], [merkle_hash] and
      [snapshot_directory] give the values computed when every [open]
      succeeds, and [merkle_hash_io], [snapshot_directory_io] are the same
      code with the exceptions, as [main] runs it;
    - the dicts of digests are [gmap]s: Python iterates a dict in insertion
      order and a set in an unspecified order, a [gmap] in its own order;
      the statements about them count and test membership, and do not
      depend on that order; the mapping from roots to overlays, whose order
      [main] and [cleanup_overlays] do use, is a [dict]: the items in
      insertion order;
    - the external programs (rsync, rm, docker) and the random names of
      [tempfile.mkdtemp] are functions of the current state, collected in an
      environment record; the calls made are logged;
    - [main] starts from the parsed command line, with the editable paths
      already resolved. *)

From Stdlib Require Import ZArith List Ascii Bool Lia.
From Stdlib Require String.
From stdpp Require Import base option list sorting gmap strings fin_maps.
Import ListNotations.
Set Warnings "-clear-no-such-hyp".

(** ** SHA-256 ([hashlib.sha256], FIPS 180-4) on 32-bit words held in [Z] *)

Module Sha256.
Local Open Scope Z_scope.

Definition mask32 : Z := 4294967295.
Definition add32 (x y : Z) : Z := Z.land (x + y) mask32.
Definition rotr (n x : Z) : Z :=
  Z.lor (Z.shiftr x n) (Z.land (Z.shiftl x (32 - n)) mask32).
Definition shr (n x : Z) : Z := Z.shiftr x n.
Definition not32 (x : Z) : Z := Z.lxor x mask32.

Definition Ch (x y z : Z) : Z := Z.lxor (Z.land x y) (Z.land (not32 x) z).
Definition Maj (x y z : Z) : Z :=
  Z.lxor (Z.lxor (Z.land x y) (Z.land x z)) (Z.land y z).
Definition bsig0 (x : Z) : Z := Z.lxor (Z.lxor (rotr 2 x) (rotr 13 x)) (rotr 22 x).
Definition bsig1 (x : Z) : Z := Z.lxor (Z.lxor (rotr 6 x) (rotr 11 x)) (rotr 25 x).
Definition ssig0 (x : Z) : Z := Z.lxor (Z.lxor (rotr 7 x) (rotr 18 x)) (shr 3 x).
Definition ssig1 (x : Z) : Z := Z.lxor (Z.lxor (rotr 17 x) (rotr 19 x)) (shr 10 x).

(** The constants of FIPS 180-4, computed as the standard defines them: the
    first 32 bits of the fractional parts of the cube roots of the first 64
    primes, and of the square roots of the first 8 primes. *)
Definition is_prime (n : nat) : bool :=
  forallb (fun d => negb (Nat.eqb (Nat.modulo n d) 0)) (seq 2 (n - 2)).

Definition primes : list Z :=
  map Z.of_nat (List.filter is_prime (seq 2 310)).

(** The integer cube root, bit by bit from the top. *)
Definition icbrt (n : Z) : Z :=
  fold_left (fun r b => let c := r + 2 ^ b in if c * c * c <=? n then c else r)
            (map Z.of_nat (rev (seq 0 40))) 0.

Definition K : list Z :=
  Eval vm_compute in map (fun p => Z.land (icbrt (p * 2 ^ 96)) mask32) primes.

Definition H0 : list Z :=
  Eval vm_compute in map (fun p => Z.land (Z.sqrt (p * 2 ^ 64)) mask32) (firstn 8 primes).

(** Padding: a 1 bit, zeros up to 56 mod 64 bytes, the bit length on 8 bytes. *)
Definition be_bytes (n : nat) (x : Z) : list Z :=
  map (fun i => Z.land (Z.shiftr x (8 * Z.of_nat i)) 255) (rev (seq 0 n)).

Definition pad (msg : list Z) : list Z :=
  let len := Z.of_nat (length msg) in
  let zeros := Z.to_nat ((55 - len) mod 64) in
  msg ++ [128] ++ repeat 0 zeros ++ be_bytes 8 (8 * len).

Fixpoint words (bs : list Z) : list Z :=
  match bs with
  | a :: b :: c :: d :: rest =>
      (Z.shiftl a 24 + Z.shiftl b 16 + Z.shiftl c 8 + d) :: words rest
  | _ => []
  end.

Fixpoint blocks (fuel : nat) (ws : list Z) : list (list Z) :=
  match fuel, ws with
  | S fuel', _ :: _ => firstn 16 ws :: blocks fuel' (skipn 16 ws)
  | _, _ => []
  end.

(** Message schedule: [W_t] for [16 <= t < 64]. *)
Fixpoint extend (n : nat) (w : list Z) : list Z :=
  match n with
  | O => w
  | S n' =>
      let t := length w in
      let at_ (k : nat) := nth (t - k) w 0 in
      extend n' (w ++ [add32 (add32 (ssig1 (at_ 2%nat)) (at_ 7%nat))
                             (add32 (ssig0 (at_ 15%nat)) (at_ 16%nat))])
  end.

Record regs := Regs { ra : Z; rb : Z; rc : Z; rd : Z; re : Z; rf : Z; rg : Z; rh : Z }.

Definition round (s : regs) (kw : Z * Z) : regs :=
  let t1 := add32 (add32 (add32 (rh s) (bsig1 (re s))) (Ch (re s) (rf s) (rg s)))
                  (add32 (fst kw) (snd kw)) in
  let t2 := add32 (bsig0 (ra s)) (Maj (ra s) (rb s) (rc s)) in
  Regs (add32 t1 t2) (ra s) (rb s) (rc s) (add32 (rd s) t1) (re s) (rf s) (rg s).

Definition of_list (h : list Z) : regs :=
  Regs (nth 0 h 0) (nth 1 h 0) (nth 2 h 0) (nth 3 h 0)
       (nth 4 h 0) (nth 5 h 0) (nth 6 h 0) (nth 7 h 0).

Definition to_list (s : regs) : list Z :=
  [ra s; rb s; rc s; rd s; re s; rf s; rg s; rh s].

Definition compress (h : list Z) (block : list Z) : list Z :=
  let s := fold_left round (combine K (extend 48 block)) (of_list h) in
  map (fun p => add32 (fst p) (snd p)) (combine h (to_list s)).

Definition digest (msg : list Z) : list Z :=
  let ws := words (pad msg) in
  fold_left compress (blocks (length ws) ws) H0.

Definition hex_digit (d : Z) : ascii :=
  if d <? 10 then ascii_of_nat (Z.to_nat (48 + d))
  else ascii_of_nat (Z.to_nat (87 + d)).

Definition hex_word (x : Z) : list ascii :=
  map (fun i => hex_digit (Z.land (Z.shiftr x (4 * Z.of_nat i)) 15)) (rev (seq 0 8)).

Definition bytes_of_string (s : string) : list Z :=
  map (fun a => Z.of_nat (nat_of_ascii a)) (String.list_ascii_of_string s).

(** [hashlib.sha256(s).hexdigest()] *)
Definition hexdigest (s : string) : string :=
  String.string_of_list_ascii (flat_map hex_word (digest (bytes_of_string s))).

End Sha256.

(** ** The hasher object and [hash_file] *)

(** A [hashlib] object is modelled by the message fed to it so far:
    [update] appends, [hexdigest] hashes the whole message. *)
Definition sha_new : string := "".
Definition sha_update (sha chunk : string) : string := sha +:+ chunk.
Definition sha_hexdigest (sha : string) : string := Sha256.hexdigest sha.

Definition chunk_size : nat := N.to_nat 8192.

(** [iter(lambda: f.read(8192), b'')]: the chunks read until the empty one. *)
Fixpoint read_chunks (fuel : nat) (data : string) : list string :=
  match fuel with
  | O => []
  | S fuel' =>
      if decide (data = "") then []
      else String.substring 0 chunk_size data ::
           read_chunks fuel'
             (String.substring chunk_size (String.length data - chunk_size) data)
  end.

(** [hash_file], on the bytes that [open(path, 'rb')] gives: the digest
    returned when [open] succeeds.  [hash_file_io] below is the call with
    the exception that [open] may raise. *)
Definition hash_file (content : string) : string :=
  sha_hexdigest (fold_left sha_update (read_chunks (String.length content) content) sha_new).

(** ** Python's [sorted] on names and on (name, digest) tuples *)

Definition str_le (a b : string) : Prop := String.leb a b = true.

Definition entry_leb (a b : string * string) : bool :=
  match String.compare a.1 b.1 with
  | Lt => true
  | Eq => String.leb a.2 b.2
  | Gt => false
  end.
Definition entry_le (a b : string * string) : Prop := entry_leb a b = true.

Definition name_le (a b : string * string) : Prop := str_le a.1 b.1.

Global Instance str_le_dec : RelDecision str_le :=
  λ a b, decide (String.leb a b = true).
Global Instance entry_le_dec : RelDecision entry_le :=
  λ a b, decide (entry_leb a b = true).
Global Instance name_le_dec : RelDecision name_le :=
  λ a b, decide (String.leb a.1 b.1 = true).

Definition sorted_names : list string → list string := merge_sort str_le.
Definition sorted_entries : list (string * string) → list (string * string) :=
  merge_sort entry_le.
(** [sorted(files)] where each name carries the bytes of its file. *)
Definition sorted_files : list (string * string) → list (string * string) :=
  merge_sort name_le.

(** ** The file system *)

(** A directory lists its entries in the order [os.scandir] enumerates them. *)
#[warnings="-register-all"]
Inductive node : Type :=
  | File (content : string)
  | Dir (entries : list (string * node)).

(** Absolute, resolved paths: the components below the root. *)
Definition path : Type := list string.

Definition is_dir_node (n : node) : bool :=
  match n with Dir _ => true | File _ => false end.

Fixpoint entry_get (c : string) (es : list (string * node)) : option node :=
  match es with
  | [] => None
  | (k, v) :: es' => if decide (k = c) then Some v else entry_get c es'
  end.

(** The entry named [c] is the first one with that name. *)
Fixpoint entry_map (c : string) (g : node → node) (es : list (string * node))
    : list (string * node) :=
  match es with
  | [] => []
  | (k, v) :: es' => if decide (k = c) then (k, g v) :: es' else (k, v) :: entry_map c g es'
  end.

Fixpoint entry_set (c : string) (n : node) (es : list (string * node))
    : list (string * node) :=
  match es with
  | [] => [(c, n)]
  | (k, v) :: es' => if decide (k = c) then (k, n) :: es' else (k, v) :: entry_set c n es'
  end.

Definition entry_alter (f : option node → option node) (c : string)
    (es : list (string * node)) : list (string * node) :=
  match f (entry_get c es) with
  | Some n' => entry_set c n' es
  | None => filter (λ e, e.1 ≠ c) es
  end.

Fixpoint fs_lookup (n : node) (p : path) : option node :=
  match p with
  | [] => Some n
  | c :: p' =>
      match n with
      | Dir es =>
          match entry_get c es with
          | Some child => fs_lookup child p'
          | None => None
          end
      | File _ => None
      end
  end.

(** Replace, create or delete what stands at [p]; nothing happens when the
    parent of [p] is not a directory, and the root itself stays. *)
Fixpoint fs_alter (f : option node → option node) (p : path) (n : node) : node :=
  match p with
  | [] => n
  | c :: p' =>
      match n with
      | Dir es =>
          match p' with
          | [] => Dir (entry_alter f c es)
          | _ :: _ => Dir (entry_map c (fs_alter f p') es)
          end
      | File _ => n
      end
  end.

Definition path_exists (fs : node) (p : path) : bool :=
  bool_decide (is_Some (fs_lookup fs p)).
Definition path_is_dir (fs : node) (p : path) : bool :=
  match fs_lookup fs p with Some (Dir _) => true | _ => false end.

(** [os.mkdir], [os.rmdir] on an empty directory, [rm -rf], and the copy that
    [rsync -a src/ dst/] leaves in a fresh [dst]. *)
Definition fs_mkdir (p : path) (fs : node) : node :=
  fs_alter (λ o, match o with None => Some (Dir []) | Some n => Some n end) p fs.
Definition fs_rmdir (p : path) (fs : node) : node :=
  fs_alter (λ o, match o with Some (Dir []) => None | _ => o end) p fs.
Definition fs_remove (p : path) (fs : node) : node :=
  fs_alter (λ _, None) p fs.
Definition fs_put (p : path) (n : node) (fs : node) : node :=
  fs_alter (λ _, Some n) p fs.

(** ** [os.walk(directory, topdown=True)] *)

(** One item per directory: its path relative to the walked directory (empty,
    or ending in a slash), the names of its sub-directories, and the names of
    its files, each with the bytes of the file. *)
Definition walk_item : Type := string * list string * list (string * string).

Definition dir_names (es : list (string * node)) : list string :=
  omap (λ e, match e.2 with Dir _ => Some e.1 | File _ => None end) es.
Definition file_entries (es : list (string * node)) : list (string * string) :=
  omap (λ e, match e.2 with File c => Some (e.1, c) | Dir _ => None end) es.

Fixpoint walk (rel : string) (n : node) : list walk_item :=
  match n with
  | File _ => []
  | Dir es =>
      (rel, dir_names es, file_entries es) ::
      flat_map (λ e, walk (rel +:+ e.1 +:+ "/") e.2) es
  end.

(** A missing directory, or a file, is walked as nothing ([onerror=None]). *)
Definition os_walk (fs : node) (directory : path) : list walk_item :=
  match fs_lookup fs directory with
  | Some n => walk "" n
  | None => []
  end.

(** ** Hasher: [merkle_hash] *)

Definition merkle_entries (items : list walk_item) : list (string * string) :=
  flat_map (λ it : walk_item,
    let '(rel, dirs, files) := it in
    map (λ f, (rel +:+ f.1, hash_file f.2)) (sorted_files files) ++
    map (λ d, (rel +:+ d +:+ "/", "")) (sorted_names dirs)) items.

Definition merkle_fold (entries : list (string * string)) : string :=
  sha_hexdigest
    (fold_left (λ sha e, sha_update (sha_update sha e.1) e.2)
               (sorted_entries entries) sha_new).

Definition merkle_hash (fs : node) (directory : path) : string :=
  merkle_fold (merkle_entries (os_walk fs directory)).

(** [str(p)] for an absolute path. *)
Definition str_path (p : path) : string := "/" +:+ String.concat "/" p.

Definition compute_initial_hashes (fs : node) (paths : list path) : gmap string string :=
  fold_left (λ m p, <[str_path p := merkle_hash fs p]> m) paths ∅.

Definition compute_final_hashes (fs : node) (paths : list path) : gmap string string :=
  compute_initial_hashes fs paths.

Definition diff_hashes (initial final : gmap string string) : list string :=
  omap (λ kv : string * string,
          if decide (Some kv.2 ≠ final !! kv.1) then Some kv.1 else None)
       (map_to_list initial).

(** ** Snapshotter *)

Definition snapshot_items (items : list walk_item) : list (string * string) :=
  flat_map (λ it : walk_item,
    let '(rel, _, files) := it in
    map (λ f, (rel +:+ f.1, hash_file f.2)) files) items.

Definition snapshot_directory (fs : node) (directory : path) : gmap string string :=
  fold_left (λ mapping kv, <[kv.1 := kv.2]> mapping)
            (snapshot_items (os_walk fs directory)) ∅.

Definition snapshot_directories (fs : node) (paths : list path)
    : gmap string (gmap string string) :=
  fold_left (λ m p, <[str_path p := snapshot_directory fs p]> m) paths ∅.

(** ** Change reporter: [diff_snapshots] *)

(** The body of the loop over roots: the list [changed]. *)
Definition changed_files (start end_ : gmap string string) : list string :=
  omap (λ kv : string * string,
          match end_ !! kv.1 with
          | None => Some ("Removed: " +:+ kv.1)
          | Some d => if decide (d ≠ kv.2) then Some ("Modified: " +:+ kv.1) else None
          end) (map_to_list start)
  ++ map (λ file, "Added: " +:+ file) (elements (dom end_ ∖ dom start)).

Definition diff_snapshots (initial final : gmap string (gmap string string))
    : gmap string (list string) :=
  fold_left (λ result kv,
               let changed := changed_files kv.2 (default ∅ (final !! kv.1)) in
               match changed with
               | [] => result
               | _ :: _ => <[kv.1 := changed]> result
               end)
            (map_to_list initial) ∅.

(** ** The world: file system, output streams and a log of external calls *)

Inductive exn : Type :=
  | CalledProcessError (returncode : Z)
  | FileNotFoundError
  | FileExistsError
  | KeyboardInterrupt.

Inductive result (A : Type) : Type :=
  | Ret (a : A)
  | Raise (e : exn).
Arguments Ret {A} a.
Arguments Raise {A} e.

Inductive event : Type :=
  | EvMkdtemp (p : path)
  | EvRsync (src dst : path) (returncode : Z)
  | EvRm (p : path) (returncode : Z)
  | EvDocker (cmd : list string) (returncode : option Z).

Record world : Type := World {
  w_fs : node;
  w_stdout : list string;
  w_stderr : list string;
  w_log : list event          (* oldest first *)
}.

(** What [subprocess.run] on the sandbox runtime does: the file system it
    leaves and the exit code, or the exception that ends the call. *)
Inductive docker_outcome : Type :=
  | Exited (returncode : Z) (fs' : node)
  | Failed (e : exn) (fs' : node).

(** The collaborators of one session, each a function of the state in which
    it is called. *)
Record env : Type := Env {
  tmpdir : path;                                (* tempfile.gettempdir() *)
  TMP_MAX : nat;
  candidate_names : world → nat → string;       (* the names mkdtemp draws *)
  rsync_exit : world → path → path → Z;
  (* [subprocess.run(['rm', ...], check=False)]: the exit code of rm, or the
     exception that ends the call when rm cannot be started; what an
     interruption in the middle of a removal leaves is not modelled *)
  rm_run : world → path → result Z;
  (* what [open(file_path, 'rb')] raises, if anything, on the file that the
     walk of a directory lists under a relative path *)
  open_error : world → path → string → option exn;
  docker_run : world → list string → docker_outcome
}.

Definition M (A : Type) : Type := world → result A * world.

Definition ret {A} (a : A) : M A := λ w, (Ret a, w).
Definition raise {A} (e : exn) : M A := λ w, (Raise e, w).
Definition bind {A B} (m : M A) (k : A → M B) : M B :=
  λ w, match m w with
       | (Ret a, w') => k a w'
       | (Raise e, w') => (Raise e, w')
       end.

Notation "x ←← m ;; k" := (bind m (λ x, k))
  (at level 100, m at next level, right associativity, only parsing).
Notation "m ;;; k" := (bind m (λ _, k))
  (at level 100, right associativity, only parsing).

Definition get_world : M world := λ w, (Ret w, w).
Definition set_fs (fs : node) : M unit :=
  λ w, (Ret tt, World fs (w_stdout w) (w_stderr w) (w_log w)).
Definition log_event (e : event) : M unit :=
  λ w, (Ret tt, World (w_fs w) (w_stdout w) (w_stderr w) (w_log w ++ [e])).
Definition print (line : string) : M unit :=
  λ w, (Ret tt, World (w_fs w) (w_stdout w ++ [line]) (w_stderr w) (w_log w)).
Definition print_stderr (line : string) : M unit :=
  λ w, (Ret tt, World (w_fs w) (w_stdout w) (w_stderr w ++ [line]) (w_log w)).

(** ** Overlay manager *)

(** [tempfile.mkdtemp(prefix=...)]: up to [TMP_MAX] candidate names; a name
    that exists is skipped; [os.mkdir] needs the temporary directory. *)
Fixpoint mkdtemp_loop (E : env) (prefix : string) (w0 : world) (fuel seq : nat) : M path :=
  match fuel with
  | O => raise FileExistsError
  | S fuel' =>
      w ←← get_world ;;
      let file := tmpdir E ++ [prefix +:+ candidate_names E w0 seq] in
      if path_exists (w_fs w) file then mkdtemp_loop E prefix w0 fuel' (S seq)
      else if path_is_dir (w_fs w) (tmpdir E) then
        (set_fs (fs_mkdir file (w_fs w)) ;;;
         log_event (EvMkdtemp file) ;;;
         ret file)
      else raise FileNotFoundError
  end.

Definition mkdtemp (E : env) (prefix : string) : M path :=
  w ←← get_world ;; mkdtemp_loop E prefix w (TMP_MAX E) 0.

(** [subprocess.check_call(['rsync', '-a', f'{p}/', f'{tmp}/'])].  A source
    that is not a directory makes rsync fail (exit code 23).  The copy is
    that of a tree of regular files and directories; [rsync -a] copies a
    symbolic link as a link, which this tree does not hold. *)
Definition rsync (E : env) (src dst : path) : M unit :=
  w ←← get_world ;;
  let rc := match fs_lookup (w_fs w) src with
            | Some (Dir _) => rsync_exit E w src dst
            | _ => if decide (rsync_exit E w src dst = 0%Z) then 23%Z
                   else rsync_exit E w src dst
            end in
  log_event (EvRsync src dst rc) ;;;
  if decide (rc = 0%Z) then
    match fs_lookup (w_fs w) src with
    | Some n => set_fs (fs_put dst n (w_fs w))
    | None => ret tt
    end
  else raise (CalledProcessError rc).

(** [p.name]: the last component, empty for the root. *)
Definition path_name (p : path) : string := default "" (last p).

Definition replace_char (a b : ascii) (s : string) : string :=
  String.string_of_list_ascii
    (map (λ c, if decide (c = a) then b else c) (String.list_ascii_of_string s)).

Definition overlay_prefix (p : path) : string :=
  replace_char "/"%char "_"%char (path_name p) +:+ "_overlay_".

(** The [dict] from roots to overlays: its items in insertion order.
    Assigning to a key that is present replaces the value where it stands; a
    new key goes to the end. *)
Record dict : Type := Dict { dict_items : list (path * path) }.

Fixpoint assoc_get (k : path) (l : list (path * path)) : option path :=
  match l with
  | [] => None
  | (k', v) :: l' => if decide (k' = k) then Some v else assoc_get k l'
  end.

Fixpoint assoc_set (k v : path) (l : list (path * path)) : list (path * path) :=
  match l with
  | [] => [(k, v)]
  | (k', v') :: l' =>
      if decide (k' = k) then (k', v) :: l' else (k', v') :: assoc_set k v l'
  end.

Global Instance dict_lookup : Lookup path path dict :=
  λ k d, assoc_get k (dict_items d).
Global Instance dict_insert : Insert path path dict :=
  λ k v d, Dict (assoc_set k v (dict_items d)).
Global Instance dict_empty : Empty dict := Dict [].

(** [list(mapping.values())] *)
Definition dict_values (mapping : dict) : list path := (dict_items mapping).*2.

Fixpoint prepare_overlays_from (E : env) (mapping : dict) (paths : list path)
    : M dict :=
  match paths with
  | [] => ret mapping
  | p :: rest =>
      tmp ←← mkdtemp E (overlay_prefix p) ;;
      rsync E p tmp ;;;
      prepare_overlays_from E (<[p := tmp]> mapping) rest
  end.

Definition prepare_overlays (E : env) (paths : list path) : M dict :=
  prepare_overlays_from E ∅ paths.

(** [subprocess.run(['rm', '-rf', str(overlay)], check=False)]: a non-zero
    exit code is not an error; an rm that cannot be started is. *)
Definition rm_rf (E : env) (overlay : path) : M unit :=
  w ←← get_world ;;
  match rm_run E w overlay with
  | Ret rc =>
      log_event (EvRm overlay rc) ;;;
      if decide (rc = 0%Z) then set_fs (fs_remove overlay (w_fs w)) else ret tt
  | Raise e => raise e
  end.

Fixpoint for_each {A} (body : A → M unit) (l : list A) : M unit :=
  match l with
  | [] => ret tt
  | x :: l' => body x ;;; for_each body l'
  end.

Definition cleanup_overlays (E : env) (mapping : dict) : M unit :=
  for_each (rm_rf E) (dict_values mapping).

(** ** Hashing as [main] runs it *)

Fixpoint mapM {A B} (f : A → M B) (l : list A) : M (list B) :=
  match l with
  | [] => ret []
  | x :: l' => y ←← f x ;; ys ←← mapM f l' ;; ret (y :: ys)
  end.

(** [hash_file(file_path)] for the file that the walk of [directory] lists
    under [rel_path], holding [content]: [open] comes first. *)
Definition hash_file_io (E : env) (directory : path) (rel_path content : string)
    : M string :=
  w ←← get_world ;;
  match open_error E w directory rel_path with
  | Some e => raise e
  | None => ret (hash_file content)
  end.

(** [merkle_hash]: the files of each directory are hashed in sorted order
    while the tree is walked; the first [open] that raises ends the call. *)
Definition merkle_hash_io (E : env) (directory : path) : M string :=
  w ←← get_world ;;
  entries ←← mapM (λ it : walk_item,
      hashed ←← mapM (λ f : string * string,
                   digest ←← hash_file_io E directory (it.1.1 +:+ f.1) f.2 ;;
                   ret (it.1.1 +:+ f.1, digest))
                 (sorted_files it.2) ;;
      ret (hashed ++ map (λ d, (it.1.1 +:+ d +:+ "/", "")) (sorted_names it.1.2)))
    (os_walk (w_fs w) directory) ;;
  ret (merkle_fold (concat entries)).

Definition compute_initial_hashes_io (E : env) (paths : list path)
    : M (gmap string string) :=
  hashes ←← mapM (λ p, h ←← merkle_hash_io E p ;; ret (str_path p, h)) paths ;;
  ret (fold_left (λ m kv, <[kv.1 := kv.2]> m) hashes ∅).

Definition compute_final_hashes_io (E : env) (paths : list path)
    : M (gmap string string) :=
  compute_initial_hashes_io E paths.

Definition snapshot_directory_io (E : env) (directory : path)
    : M (gmap string string) :=
  w ←← get_world ;;
  hashed ←← mapM (λ it : walk_item,
      mapM (λ f : string * string,
              digest ←← hash_file_io E directory (it.1.1 +:+ f.1) f.2 ;;
              ret (it.1.1 +:+ f.1, digest))
           it.2)
    (os_walk (w_fs w) directory) ;;
  ret (fold_left (λ mapping kv, <[kv.1 := kv.2]> mapping) (concat hashed) ∅).

Definition snapshot_directories_io (E : env) (paths : list path)
    : M (gmap string (gmap string string)) :=
  snaps ←← mapM (λ p, s ←← snapshot_directory_io E p ;; ret (str_path p, s)) paths ;;
  ret (fold_left (λ m kv, <[kv.1 := kv.2]> m) snaps ∅).

(** ** Sandbox runner *)

Definition build_docker_cmd (image : string) (overlay_paths : list path)
    (command : list string) (user : string) : list string :=
  [ "docker"; "run"; "--rm"; "-it";
    "--runtime=runsc";
    "--network"; "none";
    "--read-only";
    "--tmpfs"; "/tmp";
    "--cap-drop"; "ALL";
    "--security-opt"; "no-new-privileges";
    "--pids-limit"; "64";
    "--memory"; "512m" ]
  ++ flat_map (λ p, let host := str_path p in
                    let container := host in
                    ["-v"; host +:+ ":" +:+ container +:+ ":rw"]) overlay_paths
  ++ ["--user"; user]
  ++ [image]
  ++ command.

Definition run_container (E : env) (cmd : list string) : M Z :=
  print ("Launching sandbox: " +:+ String.concat " " cmd) ;;;
  w ←← get_world ;;
  match docker_run E w cmd with
  | Exited rc fs' =>
      set_fs fs' ;;; log_event (EvDocker cmd (Some rc)) ;;; ret rc
  | Failed e fs' =>
      set_fs fs' ;;; log_event (EvDocker cmd None) ;;; raise e
  end.

(** The parsed command line ([args] after [parse_args]); the editable paths
    are given resolved. *)
Record args : Type := Args {
  a_image : string;
  a_edit : list path;
  a_user : string;
  a_command : list string
}.

Definition bad_edit_path (fs : node) (p : path) : bool :=
  negb (path_exists fs p) || negb (path_is_dir fs p).

Definition report (changes : list string) (file_changes : gmap string (list string))
    : M unit :=
  match changes with
  | _ :: _ =>
      print "Directories changed during session:" ;;;
      for_each (λ c, print (" - " +:+ c)) changes ;;;
      for_each (λ kv : string * list string,
                  for_each (λ f, print ("   " +:+ kv.1 +:+ "/" +:+ f)) kv.2)
               (map_to_list file_changes)
  | [] => print "No changes detected."
  end.

Definition main (E : env) (a : args) : M Z :=
  let edit_paths := a_edit a in
  w ←← get_world ;;
  match find (bad_edit_path (w_fs w)) edit_paths with
  | Some p =>
      print_stderr ("Editable path " +:+ str_path p +:+
                    " does not exist or is not a directory.") ;;;
      ret 1%Z
  | None =>
      overlays ←← prepare_overlays E edit_paths ;;
      let overlay_paths := dict_values overlays in
      initial_hashes ←← compute_initial_hashes_io E overlay_paths ;;
      initial_snapshots ←← snapshot_directories_io E overlay_paths ;;
      let cmd := build_docker_cmd (a_image a) overlay_paths (a_command a) (a_user a) in
      ret_ ←← run_container E cmd ;;
      final_hashes ←← compute_final_hashes_io E overlay_paths ;;
      let changes := diff_hashes initial_hashes final_hashes in
      final_snapshots ←← snapshot_directories_io E overlay_paths ;;
      let file_changes := diff_snapshots initial_snapshots final_snapshots in
      cleanup_overlays E overlays ;;;
      report changes file_changes ;;;
      ret ret_
  end.

Definition initial_world (fs : node) : world := World fs [] [] [].

(** ** Reading the log *)

Definition is_prepare_event (e : event) : bool :=
  match e with
  | EvMkdtemp _ | EvRsync _ _ _ => true
  | _ => false
  end.

Definition is_rm_event (e : event) : bool :=
  match e with EvRm _ _ => true | _ => false end.

(** How many [Removed], [Modified] and [Added] records a change list holds
    for one relative path. *)
Definition record_counts (changed : list string) (file : string) : nat * nat * nat :=
  (count_occ String.string_dec changed ("Removed: " +:+ file),
   count_occ String.string_dec changed ("Modified: " +:+ file),
   count_occ String.string_dec changed ("Added: " +:+ file)).


(** ** Shapes of trees *)

(** Induction on a tree, with the hypothesis for every entry of a directory. *)
Fixpoint node_ind' (P : node → Prop)
    (HF : ∀ c, P (File c))
    (HD : ∀ es, Forall (λ e : string * node, P e.2) es → P (Dir es))
    (n : node) {struct n} : P n :=
  match n with
  | File c => HF c
  | Dir es =>
      HD es
        ((fix go (l : list (string * node)) : Forall (λ e : string * node, P e.2) l :=
            match l with
            | [] => @List.Forall_nil _ _
            | e :: l' => @List.Forall_cons _ _ e l' (node_ind' P HF HD e.2) (go l')
            end) es)
  end.

(** [at_path n comps m]: following the names [comps] from [n] leads to [m]. *)
Inductive at_path : node → list string → node → Prop :=
  | at_here (n : node) : at_path n [] n
  | at_below (es : list (string * node)) (c : string) (child : node)
             (p : list string) (n : node) :
      (c, child) ∈ es → at_path child p n → at_path (Dir es) (c :: p) n.

(** A tree made of directories only. *)
Fixpoint only_dirs (n : node) : bool :=
  match n with
  | File _ => false
  | Dir es => forallb (λ e, only_dirs e.2) es
  end.

(** Names are unique within each directory. *)
Fixpoint unique_names (n : node) : bool :=
  match n with
  | File _ => true
  | Dir es => bool_decide (NoDup es.*1) && forallb (λ e, unique_names e.2) es
  end.


(** The (relative path, digest) pairs that [snapshot_directory] writes for the
    tree [n] whose relative path is [rel]. *)
Definition tree_snapshot (rel : string) (n : node) : list (string * string) :=
  snapshot_items (walk rel n).


(** The pairs written for what stands at [D] below the node [o], if anything. *)
Definition snapshot_below (o : option node) (D : path) : list (string * string) :=
  match o ≫= (λ n, fs_lookup n D) with
  | Some n => tree_snapshot "" n
  | None => []
  end.


(** ** What a walk has seen *)

(** The relative paths of the files of a walked tree, each with the bytes of
    the file, and the relative paths of its sub-directories. *)
Definition tree_files (items : list walk_item) : list (string * string) :=
  flat_map (λ it : walk_item, map (λ f, (it.1.1 +:+ f.1, f.2)) it.2) items.
Definition tree_dirs (items : list walk_item) : list string :=
  flat_map (λ it : walk_item, map (λ d, it.1.1 +:+ d +:+ "/") it.1.2) items.



(** Two snapshots of the same directory, one after the other. *)
Definition snapshot_twice (D : path) : M (gmap string string * gmap string string) :=
  w1 ←← get_world ;;
  let first := snapshot_directory (w_fs w1) D in
  w2 ←← get_world ;;
  let second := snapshot_directory (w_fs w2) D in
  ret (first, second).


Definition is_docker_event (e : event) : bool :=
  match e with EvDocker _ _ => true | _ => false end.

(** The file system that a call of the sandbox runtime leaves. *)
Definition outcome_fs (o : docker_outcome) : node :=
  match o with Exited _ fs' => fs' | Failed _ fs' => fs' end.

(** The line that [run_container] prints. *)
Definition launch_line (cmd : list string) : string :=
  "Launching sandbox: " +:+ String.concat " " cmd.


(** ** Code that only reads the file system *)

(** [reads E m val]: running [m] leaves the world as it is; it returns
    [val w] or raises, and it returns when every [open] succeeds. *)
Definition reads {A} (E : env) (m : M A) (val : world → A) : Prop :=
  ∀ w, (m w = (Ret (val w), w) ∨ ∃ e, m w = (Raise e, w)) ∧
       ((∀ d s, open_error E w d s = None) → m w = (Ret (val w), w)).

(** Every [open] made once the sandboxed command has exited succeeds. *)
Definition opens_after_exit (E : env) : Prop :=
  ∀ w d s, (∃ cmd rc, EvDocker cmd (Some rc) ∈ w_log w) → open_error E w d s = None.

(** [rm] can be started: [subprocess.run] returns its exit code. *)
Definition rm_starts (E : env) : Prop :=
  ∀ w ov, ∃ rc, rm_run E w ov = Ret rc.


(** ** Sessions used as concrete instances *)

Module Examples.

Definition fs0 : node :=
  Dir [("tmp", Dir []);
       ("home", Dir [("proj", Dir [("file.txt", File "one")]);
                     ("docs", Dir [("a", File "x"); ("sub", Dir [])])])].

Definition proj : path := ["home"; "proj"].
Definition docs : path := ["home"; "docs"].

(** Candidate names: as many letters as calls logged so far, plus the try. *)
Definition names (w : world) (n : nat) : string :=
  String.concat "" (replicate (length (w_log w) + n + 1) "a").

(** A sandboxed command that rewrites [file.txt] in the overlay, exit code 7. *)
Definition sandbox (w : world) (cmd : list string) : docker_outcome :=
  Exited 7 (fs_put ["tmp"; "proj_overlay_a"; "file.txt"] (File "two") (w_fs w)).

Definition E_ok : env :=
  Env ["tmp"] 100 names (λ _ _ _, 0%Z) (λ _ _, Ret 0%Z) (λ _ _ _, None) sandbox.

(** The runtime is not installed: [subprocess.run] raises. *)
Definition E_nolaunch : env :=
  Env ["tmp"] 100 names (λ _ _ _, 0%Z) (λ _ _, Ret 0%Z) (λ _ _ _, None)
      (λ w _, Failed FileNotFoundError (w_fs w)).

(** rsync fails on the second copy. *)
Definition E_rsync2 : env :=
  Env ["tmp"] 100 names
      (λ w _ _, if decide (length (w_log w) = 1%nat) then 0%Z else 12%Z)
      (λ _ _, Ret 0%Z) (λ _ _ _, None) sandbox.




(** A sandboxed command that touches nothing and exits with 0. *)
Definition E_idle : env :=
  Env ["tmp"] 100 names (λ _ _ _, 0%Z) (λ _ _, Ret 0%Z) (λ _ _ _, None)
      (λ w _, Exited 0 (w_fs w)).

(** [rm] is not to be found once the first overlay has been removed. *)
Definition E_rm_missing : env :=
  Env ["tmp"] 100 names (λ _ _ _, 0%Z)
      (λ w _, if decide (Forall (λ e, is_rm_event e = false) (w_log w))
              then Ret 0%Z else Raise FileNotFoundError)
      (λ _ _ _, None)
      (λ w _, Exited 0 (w_fs w)).


(** The same files, with and without an empty sub-directory. *)
Definition tree_plain : node := Dir [("f", File "x")].
Definition tree_with_empty_dir : node := Dir [("f", File "x"); ("d", Dir [])].

(** Two files, and one file whose name is the first file's name, the first
    file's digest and the second file's name, one after the other. *)
Definition tree_two_files : node := Dir [("a", File "one"); ("b", File "two")].
Definition tree_glued : node :=
  Dir [("a" +:+ hash_file "one" +:+ "b", File "two")].

(** A root named [r] holding the given tree. *)
Definition in_r (t : node) : node := Dir [("r", t)].

Definition one : node := in_r (Dir [("file.txt", File "one")]).
Definition two : node := in_r (Dir [("file.txt", File "two")]).

(** Snapshots of one root before and after: [a] kept, [b] rewritten,
    [c] deleted, [d] created. *)
Definition snap_pre : gmap string string :=
  {[ "a" := "1"; "b" := "2"; "c" := "3" ]}.
Definition snap_post : gmap string string :=
  {[ "a" := "1"; "b" := "9"; "d" := "4" ]}.

Definition a_proj : args := Args "img" [proj] "dev" ["/bin/bash"].

End Examples.

(** * Properties *)

(** ** Hasher: test vectors *)

Example sha256_constants :
  length Sha256.K = 64%nat ∧
  nth 0 Sha256.K 0%Z = 0x428a2f98%Z ∧ nth 63 Sha256.K 0%Z = 0xc67178f2%Z ∧
  nth 0 Sha256.H0 0%Z = 0x6a09e667%Z ∧ nth 7 Sha256.H0 0%Z = 0x5be0cd19%Z.
Proof. vm_compute. by split_and!. Qed.

Example sha256_empty :
  Sha256.hexdigest "" =
  "e3b0c44298fc1c149afbf4c8996fb92427ae41e4649b934ca495991b7852b855".
Proof. vm_compute. reflexivity. Qed.

Example sha256_abc :
  Sha256.hexdigest "abc" =
  "ba7816bf8f01cfea414140de5dae2223b00361a396177a9cb410ff61f20015ad".
Proof. vm_compute. reflexivity. Qed.

Example sha256_two_blocks :
  Sha256.hexdigest "abcdbcdecdefdefgefghfghighijhijkijkljklmklmnlmnomnopnopq" =
  "248d6a61d20638b8e5c026930c3e6039a33ce45964ff2167f6ecedd419db06c1".
Proof. vm_compute. reflexivity. Qed.

Example hash_file_small : hash_file "abc" = Sha256.hexdigest "abc".
Proof. vm_compute. reflexivity. Qed.

Lemma string_app_assoc (a b c : string) : (a +:+ b) +:+ c = a +:+ (b +:+ c).
Proof.
  induction a as [|x a IH]; [done|].
  change (String x ((a +:+ b) +:+ c) = String x (a +:+ (b +:+ c))).
  by rewrite IH.
Qed.

(** Reading in chunks of 8192 bytes feeds the hasher the whole file. *)
Lemma substring_whole (s : string) : String.substring 0 (String.length s) s = s.
Proof. induction s as [|c s IH]; [done|]. simpl. by rewrite IH. Qed.

Lemma substring_split (n : nat) (s : string) :
  String.substring 0 n s +:+ String.substring n (String.length s - n) s = s.
Proof.
  revert s. induction n as [|n IH]; intros s.
  - rewrite Nat.sub_0_r, substring_whole. by destruct s.
  - destruct s as [|c s]; [done|]. simpl.
    change (String c (String.substring 0 n s +:+
                      String.substring n (String.length s - n) s) = String c s).
    by rewrite IH.
Qed.

Lemma substring_length_le (n m : nat) (s : string) :
  String.length (String.substring n m s) ≤ m.
Proof.
  revert n m. induction s as [|c s IH]; intros n m.
  - destruct n, m; simpl; lia.
  - destruct n as [|n]; simpl.
    + destruct m as [|m]; simpl; [lia|]. specialize (IH 0 m). lia.
    + apply IH.
Qed.

Lemma read_chunks_whole (fuel : nat) :
  ∀ data acc, String.length data ≤ fuel →
    fold_left sha_update (read_chunks fuel data) acc = acc +:+ data.
Proof.
  induction fuel as [|fuel IH]; intros data acc Hlen.
  - destruct data; [|simpl in Hlen; lia]. simpl.
    clear. induction acc as [|c acc IH]; [done|].
    change (String c acc = String c (acc +:+ "")). by rewrite <- IH.
  - simpl. destruct (decide (data = "")) as [->|Hne].
    + simpl. clear. induction acc as [|c acc IH]; [done|].
      change (String c acc = String c (acc +:+ "")). by rewrite <- IH.
    + simpl. rewrite IH.
      * unfold sha_update. rewrite string_app_assoc. by rewrite substring_split.
      * pose proof (substring_length_le chunk_size
                      (String.length data - chunk_size) data) as Hle.
        assert (1 ≤ chunk_size) by (unfold chunk_size; lia).
        destruct data; [done|]. simpl in *. lia.
Qed.

(** X1: [hash_file] does not depend on the chunk size: feeding the hasher
    the chunks of 8192 bytes, one [update] per chunk until the empty read,
    gives the SHA-256 digest of the whole content, for a file of any length,
    the empty file included. *)
Lemma hash_file_whole (content : string) : hash_file content = Sha256.hexdigest content.
Proof.
  unfold hash_file, sha_hexdigest. by rewrite read_chunks_whole.
Qed.

(** The repository's own test of [diff_snapshots]: [file.txt] goes from
    "one" to "two". *)
Example test_diff_snapshots_detects_changes :
  diff_snapshots (snapshot_directories Examples.one [["r"]])
                 (snapshot_directories Examples.two [["r"]]) !! "/r"
  = Some ["Modified: file.txt"].
Proof. vm_compute. reflexivity. Qed.

(** ** The state monad *)

Ltac munfold :=
  unfold bind, ret, raise, get_world, set_fs, log_event, print, print_stderr in *.

Lemma for_each_print_ok (f : string → string) (l : list string) (w : world) :
  for_each (λ x, print (f x)) l w =
  (Ret tt, World (w_fs w) (w_stdout w ++ map f l) (w_stderr w) (w_log w)).
Proof.
  revert w. induction l as [|x l IH]; intros w; simpl.
  - munfold. rewrite app_nil_r. by destruct w.
  - munfold. simpl. rewrite IH. simpl. by rewrite <- app_assoc.
Qed.

Lemma for_each_report_ok (l : list (string * list string)) (w : world) :
  ∃ out,
    for_each (λ kv : string * list string,
                for_each (λ f, print ("   " +:+ kv.1 +:+ "/" +:+ f)) kv.2) l w
    = (Ret tt, World (w_fs w) out (w_stderr w) (w_log w)).
Proof.
  revert w. induction l as [|kv l IH]; intros w; simpl.
  - munfold. exists (w_stdout w). by destruct w.
  - unfold bind.
    rewrite (for_each_print_ok (λ f, "   " +:+ kv.1 +:+ "/" +:+ f)).
    destruct (IH (World (w_fs w)
                    (w_stdout w ++ map (λ f, "   " +:+ kv.1 +:+ "/" +:+ f) kv.2)
                    (w_stderr w) (w_log w))) as [out Hout].
    rewrite Hout. simpl. eauto.
Qed.

Lemma report_ok (changes : list string) (fc : gmap string (list string)) (w : world) :
  ∃ out, report changes fc w = (Ret tt, World (w_fs w) out (w_stderr w) (w_log w)).
Proof.
  destruct changes as [|c cs].
  - simpl. munfold. eauto.
  - unfold report, bind. unfold print at 1.
    rewrite (for_each_print_ok (λ c, " - " +:+ c)).
    match goal with |- context [for_each _ _ ?w'] =>
      destruct (for_each_report_ok (map_to_list fc) w') as [out Hout] end.
    rewrite Hout. simpl. eauto.
Qed.

(** ** Hashing in the monad *)

Lemma reads_ret {A} (E : env) (v : A) : reads E (ret v) (λ _, v).
Proof. intros w. by split; [left|]. Qed.

Lemma reads_get_world (E : env) : reads E get_world (λ w, w).
Proof. intros w. by split; [left|]. Qed.

Lemma reads_bind {A B} (E : env) (m : M A) (k : A → M B)
    (val : world → A) (val' : A → world → B) :
  reads E m val → (∀ a, reads E (k a) (val' a)) →
  reads E (bind m k) (λ w, val' (val w) w).
Proof.
  intros Hm Hk w. unfold bind. destruct (Hm w) as [[Hr|[e He]] Hok].
  - rewrite Hr. apply Hk.
  - rewrite He. split; [right; eauto|].
    intros Hall. rewrite (Hok Hall) in He. discriminate He.
Qed.

Lemma reads_ext {A} (E : env) (m : M A) (val val' : world → A) :
  (∀ w, val w = val' w) → reads E m val → reads E m val'.
Proof. intros Hext Hm w. rewrite <- Hext. apply Hm. Qed.

Lemma reads_mapM {A B} (E : env) (f : A → M B) (g : A → world → B) (l : list A) :
  (∀ x, reads E (f x) (g x)) →
  reads E (mapM f l) (λ w, map (λ x, g x w) l).
Proof.
  intros Hf. induction l as [|x l IH]; simpl; [apply reads_ret|].
  apply (reads_bind E (f x) _ (g x) (λ y w, y :: map (λ x, g x w) l)); [apply Hf|].
  intros y.
  apply (reads_bind E (mapM f l) _ (λ w, map (λ x, g x w) l) (λ ys _, y :: ys));
    [apply IH|].
  intros ys. apply reads_ret.
Qed.

Lemma reads_hash_file_io (E : env) (directory : path) (rel_path content : string) :
  reads E (hash_file_io E directory rel_path content) (λ _, hash_file content).
Proof.
  intros w. unfold hash_file_io, bind, get_world.
  destruct (open_error E w directory rel_path) as [e|] eqn:He.
  - split; [right; by exists e|]. intros Hall. by rewrite Hall in He.
  - by split; [left|].
Qed.

Lemma reads_hash_files (E : env) (directory : path) (rel : string)
    (files : list (string * string)) :
  reads E (mapM (λ f : string * string,
                   digest ←← hash_file_io E directory (rel +:+ f.1) f.2 ;;
                   ret (rel +:+ f.1, digest)) files)
          (λ _, map (λ f, (rel +:+ f.1, hash_file f.2)) files).
Proof.
  apply (reads_mapM E _ (λ f _, (rel +:+ f.1, hash_file f.2))).
  intros f.
  apply (reads_bind E _ _ (λ _, hash_file f.2) (λ digest _, (rel +:+ f.1, digest)));
    [apply reads_hash_file_io|].
  intros digest. apply reads_ret.
Qed.

Lemma reads_merkle_hash_io (E : env) (directory : path) :
  reads E (merkle_hash_io E directory) (λ w, merkle_hash (w_fs w) directory).
Proof.
  unfold merkle_hash_io.
  apply (reads_bind E get_world _ (λ w, w)
           (λ (a : world) (_ : world), merkle_hash (w_fs a) directory));
    [apply reads_get_world|].
  intros a. unfold merkle_hash.
  apply (reads_ext E _
           (λ w, (λ entries (_ : world), merkle_fold (concat entries))
                   (map (λ it : walk_item,
                           map (λ f, (it.1.1 +:+ f.1, hash_file f.2)) (sorted_files it.2) ++
                           map (λ d, (it.1.1 +:+ d +:+ "/", "")) (sorted_names it.1.2))
                        (os_walk (w_fs a) directory)) w)).
  { intros _. f_equal. unfold merkle_entries.
    induction (os_walk (w_fs a) directory) as [|[[rel dirs] files] items IH]; [done|].
    simpl. by rewrite IH. }
  apply (reads_bind E _ _
           (λ _, map (λ it : walk_item,
                        map (λ f, (it.1.1 +:+ f.1, hash_file f.2)) (sorted_files it.2) ++
                        map (λ d, (it.1.1 +:+ d +:+ "/", "")) (sorted_names it.1.2))
                     (os_walk (w_fs a) directory))
           (λ entries (_ : world), merkle_fold (concat entries)));
    [|intros entries; apply reads_ret].
  apply (reads_mapM E _
           (λ (it : walk_item) (_ : world),
              map (λ f, (it.1.1 +:+ f.1, hash_file f.2)) (sorted_files it.2) ++
              map (λ d, (it.1.1 +:+ d +:+ "/", "")) (sorted_names it.1.2))).
  intros it.
  apply (reads_bind E _ _
           (λ _, map (λ f, (it.1.1 +:+ f.1, hash_file f.2)) (sorted_files it.2))
           (λ hashed _, hashed ++
              map (λ d, (it.1.1 +:+ d +:+ "/", "")) (sorted_names it.1.2)));
    [apply reads_hash_files|].
  intros hashed. apply reads_ret.
Qed.

Lemma reads_snapshot_directory_io (E : env) (directory : path) :
  reads E (snapshot_directory_io E directory)
          (λ w, snapshot_directory (w_fs w) directory).
Proof.
  unfold snapshot_directory_io.
  apply (reads_bind E get_world _ (λ w, w)
           (λ (a : world) (_ : world), snapshot_directory (w_fs a) directory));
    [apply reads_get_world|].
  intros a. unfold snapshot_directory.
  apply (reads_ext E _
           (λ w, (λ hashed (_ : world),
                    fold_left (λ mapping (kv : string * string),
                                 <[kv.1 := kv.2]> mapping) (concat hashed)
                              (∅ : gmap string string))
                   (map (λ it : walk_item,
                           map (λ f, (it.1.1 +:+ f.1, hash_file f.2)) it.2)
                        (os_walk (w_fs a) directory)) w)).
  { intros _. f_equal. unfold snapshot_items.
    induction (os_walk (w_fs a) directory) as [|[[rel dirs] files] items IH]; [done|].
    simpl. by rewrite IH. }
  apply (reads_bind E _ _
           (λ _, map (λ it : walk_item,
                        map (λ f, (it.1.1 +:+ f.1, hash_file f.2)) it.2)
                     (os_walk (w_fs a) directory))
           (λ hashed (_ : world),
              fold_left (λ mapping (kv : string * string), <[kv.1 := kv.2]> mapping)
                        (concat hashed) (∅ : gmap string string)));
    [|intros hashed; apply reads_ret].
  apply (reads_mapM E _
           (λ (it : walk_item) (_ : world),
              map (λ f, (it.1.1 +:+ f.1, hash_file f.2)) it.2)).
  intros it. apply reads_hash_files.
Qed.

Lemma fold_left_insert_map {V} (val : path → V) (paths : list path) :
  ∀ acc : gmap string V,
    fold_left (λ m (kv : string * V), <[kv.1 := kv.2]> m)
              (map (λ p, (str_path p, val p)) paths) acc
    = fold_left (λ m p, <[str_path p := val p]> m) paths acc.
Proof. induction paths as [|p l IH]; intros acc; simpl; [done|apply IH]. Qed.

Lemma reads_compute_hashes_io (E : env) (paths : list path) :
  reads E (compute_initial_hashes_io E paths)
          (λ w, compute_initial_hashes (w_fs w) paths).
Proof.
  unfold compute_initial_hashes_io, compute_initial_hashes.
  apply (reads_ext E _
           (λ w, (λ hashes (_ : world),
                    fold_left (λ m (kv : string * string), <[kv.1 := kv.2]> m) hashes
                              (∅ : gmap string string))
                   (map (λ p, (str_path p, merkle_hash (w_fs w) p)) paths) w)).
  { intros w. apply fold_left_insert_map. }
  apply (reads_bind E _ _
           (λ w, map (λ p, (str_path p, merkle_hash (w_fs w) p)) paths)
           (λ hashes (_ : world),
              fold_left (λ m (kv : string * string), <[kv.1 := kv.2]> m) hashes
                        (∅ : gmap string string)));
    [|intros hashes; apply reads_ret].
  apply (reads_mapM E _ (λ p w, (str_path p, merkle_hash (w_fs w) p))).
  intros p.
  apply (reads_bind E _ _ (λ w, merkle_hash (w_fs w) p) (λ h _, (str_path p, h)));
    [apply reads_merkle_hash_io|].
  intros h. apply reads_ret.
Qed.

Lemma reads_snapshot_directories_io (E : env) (paths : list path) :
  reads E (snapshot_directories_io E paths)
          (λ w, snapshot_directories (w_fs w) paths).
Proof.
  unfold snapshot_directories_io, snapshot_directories.
  apply (reads_ext E _
           (λ w, (λ snaps (_ : world),
                    fold_left (λ m (kv : string * gmap string string),
                                 <[kv.1 := kv.2]> m) snaps
                              (∅ : gmap string (gmap string string)))
                   (map (λ p, (str_path p, snapshot_directory (w_fs w) p)) paths) w)).
  { intros w. apply fold_left_insert_map. }
  apply (reads_bind E _ _
           (λ w, map (λ p, (str_path p, snapshot_directory (w_fs w) p)) paths)
           (λ snaps (_ : world),
              fold_left (λ m (kv : string * gmap string string), <[kv.1 := kv.2]> m)
                        snaps (∅ : gmap string (gmap string string))));
    [|intros snaps; apply reads_ret].
  apply (reads_mapM E _ (λ p w, (str_path p, snapshot_directory (w_fs w) p))).
  intros p.
  apply (reads_bind E _ _ (λ w, snapshot_directory (w_fs w) p) (λ s _, (str_path p, s)));
    [apply reads_snapshot_directory_io|].
  intros s. apply reads_ret.
Qed.

(** ** Pre-flight validation *)



(** ** The file system: lookup after an update *)

Lemma entry_get_map (c c' : string) (g : node → node) (es : list (string * node)) :
  entry_get c' (entry_map c g es) =
  if decide (c = c') then g <$> entry_get c' es else entry_get c' es.
Proof.
  induction es as [|[k v] es IH]; simpl; [by case_decide|].
  repeat (case_decide; simpl; simplify_eq); try done.
  all: rewrite ?IH; repeat case_decide; by simplify_eq.
Qed.

Lemma entry_get_set (c c' : string) (n : node) (es : list (string * node)) :
  entry_get c' (entry_set c n es) =
  if decide (c = c') then Some n else entry_get c' es.
Proof.
  induction es as [|[k v] es IH]; simpl; [by repeat case_decide|].
  repeat (case_decide; simpl; simplify_eq); try done.
  all: rewrite ?IH; repeat case_decide; by simplify_eq.
Qed.

Lemma entry_get_filter (c c' : string) (es : list (string * node)) :
  entry_get c' (filter (λ e, e.1 ≠ c) es) =
  if decide (c = c') then None else entry_get c' es.
Proof.
  induction es as [|[k v] es IH]; simpl; [by case_decide|].
  rewrite filter_cons. simpl.
  repeat (case_decide; simpl; simplify_eq); try done.
  all: rewrite ?IH; repeat case_decide; by simplify_eq.
Qed.

Lemma entry_get_alter (f : option node → option node) (c c' : string)
    (es : list (string * node)) :
  entry_get c' (entry_alter f c es) =
  if decide (c = c') then f (entry_get c es) else entry_get c' es.
Proof.
  unfold entry_alter. destruct (f (entry_get c es)) as [n'|] eqn:Hf.
  - rewrite entry_get_set. by case_decide.
  - rewrite entry_get_filter. by case_decide.
Qed.

Lemma fs_lookup_app (n : node) (p q : path) :
  fs_lookup n (p ++ q) = fs_lookup n p ≫= λ m, fs_lookup m q.
Proof.
  revert n. induction p as [|c p IH]; intros n; simpl; [done|].
  destruct n as [|es]; [done|]. destruct (entry_get c es); [apply IH|done].
Qed.

Lemma fs_lookup_prefix (n : node) (p q : path) :
  p `prefix_of` q → is_Some (fs_lookup n q) → is_Some (fs_lookup n p).
Proof.
  intros [k ->] [x Hx]. rewrite fs_lookup_app in Hx.
  destruct (fs_lookup n p); [eauto|done].
Qed.

Lemma fs_alter_cons (f : option node → option node) (c : string) (p : path)
    (es : list (string * node)) :
  p ≠ [] → fs_alter f (c :: p) (Dir es) = Dir (entry_map c (fs_alter f p) es).
Proof. by destruct p. Qed.

Lemma fs_alter_single (f : option node → option node) (c : string)
    (es : list (string * node)) :
  fs_alter f [c] (Dir es) = Dir (entry_alter f c es).
Proof. done. Qed.

(** Above the altered path, the directory is the altered directory. *)
Lemma fs_lookup_alter_above (f : option node → option node) (d p : path) (n : node) :
  p ≠ [] → fs_lookup (fs_alter f (d ++ p) n) d = fs_alter f p <$> fs_lookup n d.
Proof.
  intros Hp. revert n. induction d as [|c d IH]; intros n; [done|].
  destruct n as [|es]; [done|].
  rewrite <- app_comm_cons, fs_alter_cons by (by destruct d, p).
  simpl. rewrite entry_get_map, decide_True by done.
  destruct (entry_get c es) as [child|]; simpl; [apply IH|done].
Qed.

(** At the altered path itself, when its parent is a directory. *)
Lemma fs_lookup_alter_eq (f : option node → option node) (d : path) (c : string)
    (n : node) :
  path_is_dir n d = true →
  fs_lookup (fs_alter f (d ++ [c]) n) (d ++ [c]) = f (fs_lookup n (d ++ [c])).
Proof.
  unfold path_is_dir. intros Hd.
  rewrite (fs_lookup_app (fs_alter _ _ _)), fs_lookup_alter_above by done.
  rewrite fs_lookup_app.
  destruct (fs_lookup n d) as [[|es]|]; try done. simpl.
  rewrite entry_get_alter, decide_True by done.
  destruct (entry_get c es); simpl; by destruct (f _).
Qed.

(** Away from the altered path (neither above nor below it), nothing moves. *)
Lemma fs_lookup_alter_ne (f : option node → option node) (p q : path) (n : node) :
  ¬ p `prefix_of` q → ¬ q `prefix_of` p →
  fs_lookup (fs_alter f p n) q = fs_lookup n q.
Proof.
  revert q n. induction p as [|c p IH]; intros q n Hpq Hqp.
  { destruct Hpq. apply prefix_nil. }
  destruct q as [|c' q]. { destruct Hqp. apply prefix_nil. }
  destruct n as [|es]; [done|].
  destruct p as [|c1 p1].
  - rewrite fs_alter_single. simpl. rewrite entry_get_alter.
    destruct (decide (c = c')) as [->|Hne]; [|done].
    destruct Hpq. by apply prefix_cons, prefix_nil.
  - rewrite fs_alter_cons by done. simpl fs_lookup. rewrite entry_get_map.
    destruct (decide (c = c')) as [->|Hne]; [|done].
    destruct (entry_get c' es) as [child|]; simpl; [|done].
    apply IH.
    + intros H. apply Hpq. by apply prefix_cons.
    + intros H. apply Hqp. by apply prefix_cons.
Qed.

(** A removal never makes a missing path appear. *)
Lemma fs_lookup_remove_None (p q : path) (n : node) :
  fs_lookup n q = None → fs_lookup (fs_remove p n) q = None.
Proof.
  unfold fs_remove. revert q n. induction p as [|c p IH]; intros q n Hq; [done|].
  destruct n as [|es]; [done|]. destruct q as [|c' q]; [done|].
  simpl in Hq. destruct p as [|c1 p1].
  - rewrite fs_alter_single. simpl. rewrite entry_get_alter.
    destruct (decide (c = c')) as [->|Hne]; [done|exact Hq].
  - rewrite fs_alter_cons by done. simpl fs_lookup. rewrite entry_get_map.
    destruct (decide (c = c')) as [->|Hne]; [|exact Hq].
    destruct (entry_get c' es) as [child|]; simpl; [|done].
    by apply IH.
Qed.

Lemma fs_lookup_remove_eq (p : path) (n : node) :
  p ≠ [] → fs_lookup (fs_remove p n) p = None.
Proof.
  unfold fs_remove. revert n. induction p as [|c p IH]; intros n Hp; [done|].
  destruct n as [|es]; [done|]. destruct p as [|c1 p1].
  - rewrite fs_alter_single. simpl. rewrite entry_get_alter, decide_True by done. done.
  - rewrite fs_alter_cons by done. simpl fs_lookup.
    rewrite entry_get_map, decide_True by done.
    destruct (entry_get c es) as [child|]; simpl; [|done].
    by apply IH.
Qed.

(** ** Overlay manager: one iteration of [prepare_overlays] *)

Lemma prefix_snoc_inv {A} (q d : list A) (c : A) :
  q `prefix_of` d ++ [c] → q `prefix_of` d ∨ q = d ++ [c].
Proof.
  intros [k Hk]. destruct (decide (k = [])) as [->|Hne].
  - right. by rewrite app_nil_r in Hk.
  - left. destruct (exists_last Hne) as (k' & x & ->).
    rewrite app_assoc in Hk. apply app_inj_tail in Hk as [-> _].
    by exists k'.
Qed.

Lemma mkdtemp_loop_spec (E : env) (prefix : string) (w0 : world)
    (fuel seq : nat) (w : world) (r : result path) (w' : world) :
  mkdtemp_loop E prefix w0 fuel seq w = (r, w') →
  (∃ name, r = Ret (tmpdir E ++ [name]) ∧
           fs_lookup (w_fs w) (tmpdir E ++ [name]) = None ∧
           path_is_dir (w_fs w) (tmpdir E) = true ∧
           w' = World (fs_mkdir (tmpdir E ++ [name]) (w_fs w)) (w_stdout w)
                      (w_stderr w) (w_log w ++ [EvMkdtemp (tmpdir E ++ [name])]))
  ∨ (∃ e, r = Raise e ∧ (e = FileExistsError ∨ e = FileNotFoundError) ∧ w' = w).
Proof.
  revert seq. induction fuel as [|fuel IH]; intros seq; simpl.
  - munfold. intros [= <- <-]. right. eauto.
  - unfold bind at 1. unfold get_world at 1.
    destruct (path_exists (w_fs w) _) eqn:Hex; [apply IH|].
    destruct (path_is_dir (w_fs w) (tmpdir E)) eqn:Hdir.
    + munfold. simpl. intros [= <- <-]. left. eexists. split; [done|].
      split; [|done].
      unfold path_exists in Hex. apply bool_decide_eq_false in Hex.
      destruct (fs_lookup (w_fs w) _); [destruct Hex; eauto|done].
    + munfold. intros [= <- <-]. right. eauto.
Qed.

Lemma rsync_spec (E : env) (src dst : path) (w : world) (r : result unit) (w' : world) :
  rsync E src dst w = (r, w') →
  ∃ rc, w_log w' = w_log w ++ [EvRsync src dst rc] ∧
        w_stdout w' = w_stdout w ∧ w_stderr w' = w_stderr w ∧
        ((rc = 0%Z ∧ r = Ret tt ∧
          ∃ es, fs_lookup (w_fs w) src = Some (Dir es) ∧
                w_fs w' = fs_put dst (Dir es) (w_fs w))
         ∨ (rc ≠ 0%Z ∧ r = Raise (CalledProcessError rc) ∧ w_fs w' = w_fs w)).
Proof.
  unfold rsync. unfold bind at 1. unfold get_world at 1.
  destruct (fs_lookup (w_fs w) src) as [[c|es]|] eqn:Hsrc.
  - munfold. simpl. destruct (decide (rsync_exit E w src dst = 0%Z)) as [H0|H0].
    + rewrite decide_False by done. intros [= <- <-]. eexists; repeat split; eauto.
    + rewrite decide_False by done. intros [= <- <-]. eexists; repeat split; eauto.
  - munfold. simpl. destruct (decide (rsync_exit E w src dst = 0%Z)) as [H0|H0].
    + intros [= <- <-]. eexists; repeat split; simpl; eauto.
      left. repeat split; eauto.
    + intros [= <- <-]. eexists; repeat split; eauto.
  - munfold. simpl. destruct (decide (rsync_exit E w src dst = 0%Z)) as [H0|H0].
    + rewrite decide_False by done. intros [= <- <-]. eexists; repeat split; eauto.
    + rewrite decide_False by done. intros [= <- <-]. eexists; repeat split; eauto.
Qed.

(** ** The dict from roots to overlays *)

Lemma dict_lookup_empty (p : path) : (∅ : dict) !! p = None.
Proof. done. Qed.

Lemma dict_lookup_insert_eq (m : dict) (k v : path) : <[k := v]> m !! k = Some v.
Proof.
  destruct m as [l]. unfold lookup, insert, dict_lookup, dict_insert. simpl.
  induction l as [|[k' v'] l IH]; simpl.
  - by rewrite decide_True.
  - destruct (decide (k' = k)) as [->|Hne]; simpl.
    + by rewrite decide_True.
    + by rewrite decide_False.
Qed.

Lemma dict_lookup_insert_ne (m : dict) (k k' v : path) :
  k ≠ k' → <[k := v]> m !! k' = m !! k'.
Proof.
  intros Hne. destruct m as [l]. unfold lookup, insert, dict_lookup, dict_insert. simpl.
  induction l as [|[k0 v0] l IH]; simpl.
  - by rewrite decide_False.
  - destruct (decide (k0 = k)) as [->|Hne0]; simpl.
    + by rewrite !decide_False.
    + destruct (decide (k0 = k')); [done|apply IH].
Qed.

Lemma dict_values_lookup (m : dict) (p ov : path) :
  m !! p = Some ov → ov ∈ dict_values m.
Proof.
  destruct m as [l]. unfold lookup, dict_lookup, dict_values. simpl.
  induction l as [|[k v] l IH]; simpl; [done|].
  destruct (decide (k = p)) as [->|Hne].
  - intros [= ->]. apply list_elem_of_here.
  - intros Hl. by apply list_elem_of_further, IH.
Qed.

Lemma dict_values_insert (m : dict) (k v ov : path) :
  ov ∈ dict_values (<[k := v]> m) → ov = v ∨ ov ∈ dict_values m.
Proof.
  destruct m as [l]. unfold insert, dict_insert, dict_values. simpl.
  induction l as [|[k' v'] l IH]; simpl.
  - intros Hin. apply list_elem_of_singleton in Hin. by left.
  - destruct (decide (k' = k)) as [->|Hne]; simpl; intros Hin;
      apply elem_of_cons in Hin as [->|Hin].
    + by left.
    + right. by apply list_elem_of_further.
    + right. apply list_elem_of_here.
    + destruct (IH Hin) as [?|?]; [by left|right; by apply list_elem_of_further].
Qed.

Lemma prepare_cons (E : env) (m : dict) (p : path) (rest : list path)
    (w : world) (r : result dict) (w' : world) :
  prepare_overlays_from E m (p :: rest) w = (r, w') →
  (∃ e, r = Raise e ∧ (e = FileExistsError ∨ e = FileNotFoundError) ∧ w' = w) ∨
  ∃ name rc,
    let tmp := tmpdir E ++ [name] in
    let fs1 := fs_mkdir tmp (w_fs w) in
    let log1 := w_log w ++ [EvMkdtemp tmp; EvRsync p tmp rc] in
    fs_lookup (w_fs w) tmp = None ∧ path_is_dir (w_fs w) (tmpdir E) = true ∧
    ((rc ≠ 0%Z ∧ r = Raise (CalledProcessError rc) ∧
      w' = World fs1 (w_stdout w) (w_stderr w) log1)
     ∨ (rc = 0%Z ∧ ∃ es,
          fs_lookup fs1 p = Some (Dir es) ∧
          prepare_overlays_from E (<[p := tmp]> m) rest
            (World (fs_put tmp (Dir es) fs1) (w_stdout w) (w_stderr w) log1) = (r, w'))).
Proof.
  simpl. unfold bind at 1. unfold mkdtemp. unfold bind at 1. unfold get_world at 1.
  destruct (mkdtemp_loop E (overlay_prefix p) w (TMP_MAX E) 0 w) as [r1 w1] eqn:Hmk.
  apply mkdtemp_loop_spec in Hmk as [(name & -> & Hfresh & Hdir & ->)|(e & -> & He & ->)].
  2:{ intros [= <- <-]. left. eauto. }
  unfold bind at 1.
  match goal with |- context [rsync E p ?t ?w1] =>
    destruct (rsync E p t w1) as [r2 w2] eqn:Hrs end.
  apply rsync_spec in Hrs as (rc & Hlog & Hout & Herr & Hcase).
  simpl in Hlog, Hout, Herr. rewrite <- app_assoc in Hlog. simpl in Hlog.
  intros Hrest. right. exists name, rc. simpl. split; [done|]. split; [done|].
  destruct Hcase as [(-> & -> & es & Hsrc & Hfs)|(Hrc & -> & Hfs)]; simpl in *.
  - right. split; [done|]. exists es. split; [done|].
    destruct w2; simpl in *; by subst.
  - left. split; [done|]. injection Hrest as <- <-. split; [done|].
    destruct w2; simpl in *; by subst.
Qed.

Lemma fs_mkdir_fresh_exists (d : path) (c : string) (fs : node) :
  path_is_dir fs d = true →
  fs_lookup fs (d ++ [c]) = None →
  fs_lookup (fs_mkdir (d ++ [c]) fs) (d ++ [c]) = Some (Dir []).
Proof.
  intros Hd Hf. unfold fs_mkdir. rewrite fs_lookup_alter_eq by done. by rewrite Hf.
Qed.

Lemma path_is_dir_alter_parent (f : option node → option node) (d : path)
    (c : string) (fs : node) :
  path_is_dir (fs_alter f (d ++ [c]) fs) d = path_is_dir fs d.
Proof.
  unfold path_is_dir. rewrite fs_lookup_alter_above by done.
  destruct (fs_lookup fs d) as [[|es]|]; done.
Qed.

Lemma fs_put_exists (d : path) (c : string) (n : node) (fs : node) :
  path_is_dir fs d = true →
  fs_lookup (fs_put (d ++ [c]) n fs) (d ++ [c]) = Some n.
Proof. intros Hd. unfold fs_put. by rewrite fs_lookup_alter_eq. Qed.

(** A fresh child of the temporary directory is away from every path that
    exists and is not the temporary directory or above it. *)
Lemma fresh_overlay_apart (d : path) (c : string) (q : path) (fs : node) :
  fs_lookup fs (d ++ [c]) = None →
  is_Some (fs_lookup fs q) →
  ¬ q `prefix_of` d →
  ¬ (d ++ [c]) `prefix_of` q ∧ ¬ q `prefix_of` (d ++ [c]).
Proof.
  intros Hfresh Hq Hnp. split.
  - intros Hpre. destruct (fs_lookup_prefix fs _ _ Hpre Hq) as [x Hx]. congruence.
  - intros Hpre. apply prefix_snoc_inv in Hpre as [?| ->]; [done|].
    destruct Hq as [x Hx]. congruence.
Qed.

(** The frame of one iteration: what exists outside the temporary directory's
    ancestry keeps its content. *)
Lemma overlay_step_frame (d : path) (c : string) (n : node) (q : path) (fs : node) :
  fs_lookup fs (d ++ [c]) = None →
  is_Some (fs_lookup fs q) →
  ¬ q `prefix_of` d →
  fs_lookup (fs_mkdir (d ++ [c]) fs) q = fs_lookup fs q ∧
  fs_lookup (fs_put (d ++ [c]) n (fs_mkdir (d ++ [c]) fs)) q = fs_lookup fs q.
Proof.
  intros Hfresh Hq Hnp.
  destruct (fresh_overlay_apart d c q fs Hfresh Hq Hnp) as [H1 H2].
  unfold fs_mkdir, fs_put. by rewrite !fs_lookup_alter_ne.
Qed.

Lemma path_is_dir_Some (fs : node) (p : path) :
  path_is_dir fs p = true → is_Some (fs_lookup fs p).
Proof. unfold path_is_dir. destruct (fs_lookup fs p); [eauto|done]. Qed.

Lemma overlay_not_above_tmpdir {A} (d : list A) (c : A) : ¬ (d ++ [c]) `prefix_of` d.
Proof. intros H. apply prefix_length in H. rewrite length_app in H. simpl in H. lia. Qed.

(** ** Overlay manager: the whole loop *)

(** What a run of the loop leaves behind, whether it returns or raises. *)
Lemma prepare_spec (E : env) (paths : list path) :
  ∀ (m : dict) (w : world) (r : result dict) (w' : world),
  prepare_overlays_from E m paths w = (r, w') →
  ∃ evs,
    w_log w' = w_log w ++ evs ∧ w_stdout w' = w_stdout w ∧ w_stderr w' = w_stderr w ∧
    Forall (λ e, is_prepare_event e = true) evs ∧
    (∀ ov, EvMkdtemp ov ∈ evs →
           path_is_dir (w_fs w') ov = true ∧ (∃ name, ov = tmpdir E ++ [name]) ∧
           ∀ q, is_Some (fs_lookup (w_fs w) q) → ¬ q `prefix_of` tmpdir E →
                ¬ ov `prefix_of` q ∧ ¬ q `prefix_of` ov) ∧
    (∀ q, is_Some (fs_lookup (w_fs w) q) → ¬ q `prefix_of` tmpdir E →
          fs_lookup (w_fs w') q = fs_lookup (w_fs w) q) ∧
    (∀ rc, r = Raise (CalledProcessError rc) →
           rc ≠ 0%Z ∧ ∃ src dst, last evs = Some (EvRsync src dst rc)) ∧
    (∀ m', r = Ret m' →
       (∀ p, p ∉ paths → m' !! p = m !! p) ∧
       (∀ p, p ∈ paths → ∃ ov, m' !! p = Some ov ∧ EvMkdtemp ov ∈ evs) ∧
       (NoDup paths → ∀ ov, EvMkdtemp ov ∈ evs → ∃ p, p ∈ paths ∧ m' !! p = Some ov) ∧
       (∀ p ov, p ∈ paths → m' !! p = Some ov →
                path_is_dir (w_fs w) p = true → ¬ p `prefix_of` tmpdir E →
                fs_lookup (w_fs w') ov = fs_lookup (w_fs w) p) ∧
       (∀ ov, ov ∈ dict_values m' → ov ∈ dict_values m ∨ EvMkdtemp ov ∈ evs)).
Proof.
  induction paths as [|p0 rest IH]; intros m w r w' Hrun.
  { simpl in Hrun. munfold. injection Hrun as <- <-. exists [].
    rewrite app_nil_r. split_and!; try done.
    - intros ov Hov. by apply elem_of_nil in Hov.
    - intros m' [= <-]. split_and!; try done.
      + intros p Hp. by apply elem_of_nil in Hp.
      + intros _ ov Hov. by apply elem_of_nil in Hov.
      + intros p ov Hp. by apply elem_of_nil in Hp.
      + intros ov Hov. by left. }
  apply prepare_cons in Hrun as [(e & -> & He & ->)|(name & rc & Hfresh & Hdir & Hcase)].
  { exists []. rewrite app_nil_r. split_and!; try done.
    - intros ov Hov. by apply elem_of_nil in Hov.
    - intros rc [= ->]. by destruct He. }
  simpl in Hcase.
  set (tmp := tmpdir E ++ [name]) in *.
  assert (Htmp1 : fs_lookup (fs_mkdir tmp (w_fs w)) tmp = Some (Dir []))
    by (by apply fs_mkdir_fresh_exists).
  assert (Hdir1 : path_is_dir (fs_mkdir tmp (w_fs w)) (tmpdir E) = true)
    by (unfold fs_mkdir, tmp; by rewrite path_is_dir_alter_parent).
  destruct Hcase as [(Hrc & -> & ->)|(-> & es & Hsrc & Hrest)].
  - (* rsync failed: the loop stops here *)
    exists [EvMkdtemp tmp; EvRsync p0 tmp rc]. simpl. split_and!; try done.
    + by repeat constructor.
    + intros ov Hov. apply elem_of_cons in Hov as [[= ->]|Hov].
      * split_and!; [|by exists name|].
        -- unfold path_is_dir. by rewrite Htmp1.
        -- intros q Hq Hnp. by apply (fresh_overlay_apart _ _ _ (w_fs w)).
      * apply elem_of_cons in Hov as [?|Hov]; [done|by apply elem_of_nil in Hov].
    + intros q Hq Hnp.
      by apply (proj1 (overlay_step_frame (tmpdir E) name (Dir []) q (w_fs w) Hfresh Hq Hnp)).
    + intros rc' [= ->]. eauto.
  - (* rsync succeeded: the rest of the loop runs in the new state *)
    apply IH in Hrest as (evs & Hlog & Hout & Herr & Hevs & Hcre & Hframe & Hfail & Hok).
    simpl in Hlog, Hout, Herr, Hcre, Hframe, Hok.
    assert (Htmp2 : fs_lookup (fs_put tmp (Dir es) (fs_mkdir tmp (w_fs w))) tmp
                    = Some (Dir es)) by (by apply fs_put_exists).
    assert (Htmp' : fs_lookup (w_fs w') tmp = Some (Dir es)).
    { rewrite Hframe; [done| by rewrite Htmp2 |apply overlay_not_above_tmpdir]. }
    assert (Hstep : ∀ q, is_Some (fs_lookup (w_fs w) q) → ¬ q `prefix_of` tmpdir E →
              fs_lookup (fs_put tmp (Dir es) (fs_mkdir tmp (w_fs w))) q
              = fs_lookup (w_fs w) q).
    { intros q Hq Hnp.
      by apply (proj2 (overlay_step_frame (tmpdir E) name (Dir es) q (w_fs w) Hfresh Hq Hnp)). }
    exists ([EvMkdtemp tmp; EvRsync p0 tmp 0%Z] ++ evs). split_and!; try done.
    + by rewrite Hlog, <- app_assoc.
    + by repeat constructor.
    + intros ov Hov. apply elem_of_cons in Hov as [[= ->]|Hov].
      * split_and!; [|by exists name|].
        -- unfold path_is_dir. by rewrite Htmp'.
        -- intros q Hq Hnp. by apply (fresh_overlay_apart _ _ _ (w_fs w)).
      * apply elem_of_cons in Hov as [?|Hov]; [done|].
        destruct (Hcre ov Hov) as (? & ? & Hap). split_and!; [done..|].
        intros q Hq Hnp. apply Hap; [|done]. by rewrite Hstep.
    + intros q Hq Hnp. rewrite Hframe; [by apply Hstep| |done].
      by rewrite Hstep.
    + intros rc Hr. destruct (Hfail rc Hr) as (Hrc & src & dst & Hlast).
      split; [done|]. exists src, dst.
      destruct evs as [|e1 evs]; [done|]. exact Hlast.
    + intros m' Hr. destruct (Hok m' Hr) as (Hout' & Hin & Hnd & Hcont & Hvals).
      split_and!.
      * intros p Hp. apply not_elem_of_cons in Hp as [Hne Hp].
        rewrite Hout' by done. by rewrite dict_lookup_insert_ne.
      * intros p Hp. destruct (decide (p ∈ rest)) as [Hr'|Hr'].
        -- destruct (Hin p Hr') as (ov & ? & ?). exists ov. split; [done|].
           by do 2 apply list_elem_of_further.
        -- apply elem_of_cons in Hp as [->|?]; [|done].
           exists tmp. split; [|by apply list_elem_of_here].
           rewrite Hout' by done. by rewrite dict_lookup_insert_eq.
      * intros Hnodup ov Hov. apply NoDup_cons in Hnodup as [Hp0 Hnodup].
        apply elem_of_cons in Hov as [[= ->]|Hov].
        -- exists p0. split; [by apply list_elem_of_here|].
           rewrite Hout' by done. by rewrite dict_lookup_insert_eq.
        -- apply elem_of_cons in Hov as [?|Hov]; [done|].
           destruct (Hnd Hnodup ov Hov) as (p & ? & ?). exists p.
           split; [by apply list_elem_of_further|done].
      * intros p ov Hp Hm Hpd Hnp.
        assert (Hps : is_Some (fs_lookup (w_fs w) p)) by (by apply path_is_dir_Some).
        destruct (decide (p ∈ rest)) as [Hr'|Hr'].
        -- rewrite (Hcont p ov Hr' Hm); [by apply Hstep| |done].
           unfold path_is_dir. rewrite Hstep by done. exact Hpd.
        -- apply elem_of_cons in Hp as [->|?]; [|done].
           rewrite Hout', dict_lookup_insert_eq in Hm by done. injection Hm as <-.
           rewrite Htmp', <- Hsrc. unfold fs_mkdir, tmp.
           destruct (fresh_overlay_apart (tmpdir E) name p0 (w_fs w)) as [H1 H2];
             [done..|].
           by rewrite fs_lookup_alter_ne.
      * intros ov Hov. destruct (Hvals ov Hov) as [Hov'|Hov'].
        -- apply dict_values_insert in Hov' as [->|?]; [|by left].
           right. apply list_elem_of_here.
        -- right. by do 2 apply list_elem_of_further.
Qed.

(** ** Overlay manager: [cleanup_overlays] *)

Lemma rm_rf_spec (E : env) (p : path) (w : world) :
  rm_rf E p w =
  match rm_run E w p with
  | Ret rc =>
      (Ret tt,
       World (if decide (rc = 0%Z) then fs_remove p (w_fs w) else w_fs w)
             (w_stdout w) (w_stderr w) (w_log w ++ [EvRm p rc]))
  | Raise e => (Raise e, w)
  end.
Proof.
  unfold rm_rf. munfold. simpl. destruct (rm_run E w p) as [rc|e]; [|done].
  by destruct (decide (rc = 0%Z)).
Qed.

(** Every removal that [rm] answers is logged; an overlay whose removal
    exits with 0 is gone at the end; what lies apart from the listed
    overlays stays; the loop ends early only when [rm] cannot be started. *)
Lemma cleanup_spec (E : env) (l : list path) :
  ∀ w r w', for_each (rm_rf E) l w = (r, w') →
  ∃ evs,
    w_log w' = w_log w ++ evs ∧ w_stdout w' = w_stdout w ∧ w_stderr w' = w_stderr w ∧
    Forall (λ e, is_rm_event e = true) evs ∧
    (∀ q, fs_lookup (w_fs w) q = None → fs_lookup (w_fs w') q = None) ∧
    (∀ p, p ≠ [] → EvRm p 0%Z ∈ evs → fs_lookup (w_fs w') p = None) ∧
    (∀ q, (∀ p, p ∈ l → ¬ p `prefix_of` q ∧ ¬ q `prefix_of` p) →
          fs_lookup (w_fs w') q = fs_lookup (w_fs w) q) ∧
    (r = Ret tt → ∀ p, p ∈ l → ∃ rc, EvRm p rc ∈ evs) ∧
    (rm_starts E → r = Ret tt).
Proof.
  induction l as [|p l IH]; intros w r w' Hrun.
  - simpl in Hrun. munfold. injection Hrun as <- <-. exists []. rewrite app_nil_r.
    split_and!; try done.
    + intros p _ Hp. by apply elem_of_nil in Hp.
    + intros _ p Hp. by apply elem_of_nil in Hp.
  - simpl in Hrun. unfold bind in Hrun. rewrite rm_rf_spec in Hrun.
    destruct (rm_run E w p) as [rc|e] eqn:Hrm.
    2:{ injection Hrun as <- <-. exists []. rewrite app_nil_r. split_and!; try done.
        - intros p' _ Hp. by apply elem_of_nil in Hp.
        - intros Hst. destruct (Hst w p) as [rc Hrc]. congruence. }
    set (w1 := World _ _ _ _) in Hrun.
    destruct (IH w1 r w' Hrun)
      as (evs & Hlog & Hout & Herr & Hevs & Hkeep & Hgone & Hframe & Hall & Hst).
    exists (EvRm p rc :: evs).
    assert (Hkeep1 : ∀ q, fs_lookup (w_fs w) q = None → fs_lookup (w_fs w1) q = None).
    { intros q Hq. unfold w1. simpl. case_decide; [|done].
      by apply fs_lookup_remove_None. }
    split_and!; try done.
    + rewrite Hlog. unfold w1. simpl. by rewrite <- app_assoc.
    + by constructor.
    + intros q Hq. by apply Hkeep, Hkeep1.
    + intros p' Hne Hp'. apply elem_of_cons in Hp' as [[= -> Hrc]|Hp']; [|by apply Hgone].
      apply Hkeep. unfold w1. simpl. rewrite <- Hrc, decide_True by done.
      by apply fs_lookup_remove_eq.
    + intros q Hap. rewrite Hframe.
      2:{ intros p' Hp'. by apply Hap, list_elem_of_further. }
      unfold w1. simpl. case_decide; [|done].
      destruct (Hap p (list_elem_of_here _ _)) as [H1 H2].
      unfold fs_remove. by apply fs_lookup_alter_ne.
    + intros Hr p' Hp'. apply elem_of_cons in Hp' as [->|Hp'].
      * eexists. apply list_elem_of_here.
      * destruct (Hall Hr p' Hp') as [rc' Hrc]. exists rc'.
        by apply list_elem_of_further.
Qed.

(** ** Sandbox runner *)

Lemma run_container_spec (E : env) (cmd : list string) (w : world) :
  let w0 := World (w_fs w) (w_stdout w ++ ["Launching sandbox: " +:+ String.concat " " cmd])
                  (w_stderr w) (w_log w) in
  run_container E cmd w =
  match docker_run E w0 cmd with
  | Exited rc fs' =>
      (Ret rc, World fs' (w_stdout w0) (w_stderr w) (w_log w ++ [EvDocker cmd (Some rc)]))
  | Failed e fs' =>
      (Raise e, World fs' (w_stdout w0) (w_stderr w) (w_log w ++ [EvDocker cmd None]))
  end.
Proof.
  unfold run_container. munfold. simpl.
  by destruct (docker_run E _ cmd).
Qed.

(** ** The paths through [main] *)

(** Once the editable paths are accepted and the overlays prepared, [main]
    ends in one of five ways: hashing the overlays raises before the launch;
    the launch raises; hashing raises after the command has exited; [rm]
    cannot be started; or the report is printed and the exit code returned. *)
Lemma main_after_prepare (E : env) (a : args) (w : world) (m : dict) (wp : world)
    (r : result Z) (w' : world) :
  find (bad_edit_path (w_fs w)) (a_edit a) = None →
  prepare_overlays E (a_edit a) w = (Ret m, wp) →
  main E a w = (r, w') →
  let ovs := dict_values m in
  let cmd := build_docker_cmd (a_image a) ovs (a_command a) (a_user a) in
  let w0 := World (w_fs wp) (w_stdout wp ++ [launch_line cmd]) (w_stderr wp) (w_log wp) in
  (∃ e, r = Raise e ∧ w' = wp ∧ ¬ (∀ d s, open_error E wp d s = None))
  ∨ (∃ e fs', docker_run E w0 cmd = Failed e fs' ∧ r = Raise e ∧
              w' = World fs' (w_stdout w0) (w_stderr wp) (w_log wp ++ [EvDocker cmd None]))
  ∨ ∃ rc fs',
      docker_run E w0 cmd = Exited rc fs' ∧
      let w2 := World fs' (w_stdout w0) (w_stderr wp)
                      (w_log wp ++ [EvDocker cmd (Some rc)]) in
      ((∃ e, r = Raise e ∧ w' = w2 ∧ ¬ (∀ d s, open_error E w2 d s = None))
       ∨ (∃ e, cleanup_overlays E m w2 = (Raise e, w') ∧ r = Raise e)
       ∨ ∃ w3, cleanup_overlays E m w2 = (Ret tt, w3) ∧ r = Ret rc ∧
               report (diff_hashes (compute_initial_hashes (w_fs wp) ovs)
                                   (compute_final_hashes fs' ovs))
                      (diff_snapshots (snapshot_directories (w_fs wp) ovs)
                                      (snapshot_directories fs' ovs)) w3 = (Ret tt, w')).
Proof.
  intros Hfind Hprep Hrun ovs cmd w0. unfold main in Hrun.
  unfold bind at 1 in Hrun. unfold get_world at 1 in Hrun. rewrite Hfind in Hrun.
  unfold bind at 1 in Hrun. rewrite Hprep in Hrun. fold ovs in Hrun. fold cmd in Hrun.
  unfold bind at 1 in Hrun.
  destruct (reads_compute_hashes_io E ovs wp) as [[H1|[e H1]] Hok1]; rewrite H1 in Hrun.
  2:{ injection Hrun as <- <-. left. exists e. split_and!; [done..|].
      intros Hall. rewrite (Hok1 Hall) in H1. discriminate H1. }
  unfold bind at 1 in Hrun.
  destruct (reads_snapshot_directories_io E ovs wp) as [[H2|[e H2]] Hok2];
    rewrite H2 in Hrun.
  2:{ injection Hrun as <- <-. left. exists e. split_and!; [done..|].
      intros Hall. rewrite (Hok2 Hall) in H2. discriminate H2. }
  unfold bind at 1 in Hrun. rewrite run_container_spec in Hrun.
  cbv zeta in Hrun. fold (launch_line cmd) in Hrun. fold w0 in Hrun.
  destruct (docker_run E w0 cmd) as [rc fs'|e fs'] eqn:Hd.
  2:{ injection Hrun as <- <-. right. left. by exists e, fs'. }
  right. right. exists rc, fs'. split; [done|]. cbv zeta.
  set (w2 := World fs' (w_stdout w0) (w_stderr wp) (w_log wp ++ [EvDocker cmd (Some rc)]))
    in *.
  unfold compute_final_hashes_io in Hrun.
  unfold bind at 1 in Hrun.
  destruct (reads_compute_hashes_io E ovs w2) as [[H3|[e H3]] Hok3]; rewrite H3 in Hrun.
  2:{ injection Hrun as <- <-. left. exists e. split_and!; [done..|].
      intros Hall. rewrite (Hok3 Hall) in H3. discriminate H3. }
  unfold bind at 1 in Hrun.
  destruct (reads_snapshot_directories_io E ovs w2) as [[H4|[e H4]] Hok4];
    rewrite H4 in Hrun.
  2:{ injection Hrun as <- <-. left. exists e. split_and!; [done..|].
      intros Hall. rewrite (Hok4 Hall) in H4. discriminate H4. }
  right. unfold bind at 1 in Hrun.
  destruct (cleanup_overlays E m w2) as [[[]|e] w3] eqn:Hcl.
  2:{ injection Hrun as <- <-. left. by exists e. }
  right. exists w3. split; [done|]. unfold bind at 1 in Hrun.
  match type of Hrun with context [report ?c ?fc w3] =>
    destruct (report_ok c fc w3) as [out Hrep]; rewrite Hrep in Hrun;
    unfold compute_final_hashes; simpl in Hrep; rewrite Hrep end.
  munfold. by injection Hrun as <- <-.
Qed.

Lemma main_cases (E : env) (a : args) (w : world) (r : result Z) (w' : world) :
  main E a w = (r, w') →
  (* validation failed *)
  (r = Ret 1%Z ∧ w_fs w' = w_fs w ∧ w_log w' = w_log w ∧
   ∃ p, p ∈ a_edit a ∧ bad_edit_path (w_fs w) p = true)
  ∨ ∃ rp wp,
      prepare_overlays E (a_edit a) w = (rp, wp) ∧
      ((* prepare raised *)
       (∃ e, rp = Raise e ∧ r = Raise e ∧ w' = wp)
       ∨ ∃ overlays,
           rp = Ret overlays ∧
           let cmd := build_docker_cmd (a_image a) (dict_values overlays)
                                       (a_command a) (a_user a) in
           ((* hashing the overlays raised before the launch *)
            (∃ e, r = Raise e ∧ w' = wp)
            ∨ (* the sandbox call raised *)
            (∃ e, r = Raise e ∧ w_log w' = w_log wp ++ [EvDocker cmd None])
            ∨ (* the sandboxed command exited *)
            ∃ rc evs,
              w_log w' = w_log wp ++ [EvDocker cmd (Some rc)] ++ evs ∧
              Forall (λ e, is_rm_event e = true) evs ∧
              (∀ p, p ≠ [] → EvRm p 0%Z ∈ evs → fs_lookup (w_fs w') p = None) ∧
              (r = Ret rc ∨ ∃ e, r = Raise e) ∧
              (r = Ret rc →
               ∀ ov, ov ∈ dict_values overlays → ∃ rc', EvRm ov rc' ∈ evs) ∧
              (opens_after_exit E → rm_starts E → r = Ret rc))).
Proof.
  intros Hrun.
  destruct (find (bad_edit_path (w_fs w)) (a_edit a)) as [q|] eqn:Hfind.
  { unfold main in Hrun. unfold bind at 1 in Hrun. unfold get_world at 1 in Hrun.
    rewrite Hfind in Hrun. munfold. injection Hrun as <- <-. left. simpl.
    split_and!; try done.
    apply find_some in Hfind as [Hin Hbad]. exists q.
    split; [by apply list_elem_of_In|done]. }
  right.
  destruct (prepare_overlays E (a_edit a) w) as [rp wp] eqn:Hprep.
  exists rp, wp. split; [done|].
  destruct rp as [overlays|e].
  2:{ unfold main in Hrun. unfold bind at 1 in Hrun. unfold get_world at 1 in Hrun.
      rewrite Hfind in Hrun. unfold bind at 1 in Hrun. rewrite Hprep in Hrun.
      injection Hrun as <- <-. left. eauto. }
  right. exists overlays. split; [done|]. cbv zeta.
  destruct (main_after_prepare E a w overlays wp r w' Hfind Hprep Hrun)
    as [(e & -> & -> & _)|[(e & fs' & _ & -> & ->)|(rc & fs' & _ & Hcase)]].
  - left. eauto.
  - right. left. eauto.
  - right. right. cbv zeta in Hcase.
    destruct Hcase as [(e & -> & -> & Hno)|[(e & Hcl & ->)|(w3 & Hcl & -> & Hrep)]].
    + exists rc, []. simpl. split_and!; try done.
      * intros p _ Hp. by apply elem_of_nil in Hp.
      * right. eauto.
      * intros Hopen _. destruct Hno. intros d s. apply Hopen.
        exists (build_docker_cmd (a_image a) (dict_values overlays)
                  (a_command a) (a_user a)), rc.
        simpl. apply elem_of_app. right. apply list_elem_of_here.
    + unfold cleanup_overlays in Hcl.
      apply cleanup_spec in Hcl
        as (evs & Hlog & _ & _ & Hevs & _ & Hgone & _ & _ & Hst).
      exists rc, evs. simpl in Hlog. split_and!; try done.
      * by rewrite Hlog, <- app_assoc.
      * right. eauto.
      * intros _ Hrm. by pose proof (Hst Hrm).
    + unfold cleanup_overlays in Hcl.
      apply cleanup_spec in Hcl
        as (evs & Hlog & _ & _ & Hevs & _ & Hgone & _ & Hall & _).
      match type of Hrep with report ?c ?fc w3 = _ =>
        destruct (report_ok c fc w3) as [out Hrep']; rewrite Hrep' in Hrep end.
      injection Hrep as <-. simpl in *.
      exists rc, evs. split_and!; try done.
      * by rewrite Hlog, <- app_assoc.
      * by left.
      * intros _. by apply Hall.
Qed.

Lemma prepare_event_in (evs : list event) (e : event) :
  Forall (λ e, is_prepare_event e = true) evs → e ∈ evs → is_prepare_event e = true.
Proof. intros Hall Hin. by apply (proj1 (Forall_forall _ _) Hall). Qed.

Lemma rm_event_in (evs : list event) (e : event) :
  Forall (λ e, is_rm_event e = true) evs → e ∈ evs → is_rm_event e = true.
Proof. intros Hall Hin. by apply (proj1 (Forall_forall _ _) Hall). Qed.

(** ** The result code *)




(** ** Teardown *)




(** The teardown is also cut short when [rm] itself cannot be started: with
    two overlays, the first is removed, the second call raises, and the
    second overlay stays. *)
Example cleanup_stops_when_rm_cannot_start :
  let a := Args "img" [Examples.proj; Examples.docs] "dev" ["/bin/bash"] in
  let out := main Examples.E_rm_missing a (initial_world Examples.fs0) in
  out.1 = Raise FileNotFoundError ∧
  path_exists (w_fs out.2) ["tmp"; "proj_overlay_a"] = false ∧
  path_exists (w_fs out.2) ["tmp"; "docs_overlay_aaa"] = true.
Proof. vm_compute. by split_and!. Qed.

(** ** Failure while copying *)

Lemma prepare_app (E : env) (l1 l2 : list path) :
  ∀ (m : dict) (w : world),
    prepare_overlays_from E m (l1 ++ l2) w =
    (m1 ←← prepare_overlays_from E m l1 ;; prepare_overlays_from E m1 l2) w.
Proof.
  induction l1 as [|p l1 IH]; intros m w; [done|].
  simpl. unfold bind.
  destruct (mkdtemp E (overlay_prefix p) w) as [[tmp|e] w1]; [|done].
  destruct (rsync E p tmp w1) as [[[]|e] w2]; [|done].
  by rewrite IH.
Qed.

Lemma mkdtemp_spec (E : env) (prefix : string) (w : world) (tmp : path) (w' : world) :
  mkdtemp E prefix w = (Ret tmp, w') →
  w' = World (fs_mkdir tmp (w_fs w)) (w_stdout w) (w_stderr w)
             (w_log w ++ [EvMkdtemp tmp]).
Proof.
  unfold mkdtemp, bind, get_world. intros Hmk.
  apply mkdtemp_loop_spec in Hmk as [(name & [= ->] & _ & _ & ->)|(e & ? & _)]; done.
Qed.

(** C6, as the code has it: when rsync exits with a non-zero code for some
    root, after the copies for the roots before it succeeded,
    [prepare_overlays] raises [CalledProcessError] with that exit code right
    after that rsync call; it removes nothing, and every overlay directory
    created so far, the one being copied into included, still exists when
    the error reaches the caller. *)
Theorem prepare_failure_releases_nothing (E : env) (copied : list path) (p : path)
    (rest : list path) (w : world) (m : dict) (w1 : world) (tmp : path) (w2 : world)
    (rc : Z) :
  prepare_overlays E copied w = (Ret m, w1) →
  mkdtemp E (overlay_prefix p) w1 = (Ret tmp, w2) →
  rsync_exit E w2 p tmp = rc →
  rc ≠ 0%Z →
  ∃ w' evs,
    prepare_overlays E (copied ++ p :: rest) w = (Raise (CalledProcessError rc), w') ∧
    w_log w' = w_log w ++ evs ∧
    last evs = Some (EvRsync p tmp rc) ∧
    Forall (λ e, is_rm_event e = false) evs ∧
    EvMkdtemp tmp ∈ evs ∧
    (∀ (q ov : path), m !! q = Some ov → EvMkdtemp ov ∈ evs) ∧
    (∀ ov, EvMkdtemp ov ∈ evs → path_is_dir (w_fs w') ov = true).
Proof.
  intros Hprep Hmk Hrc Hne.
  pose proof (mkdtemp_spec _ _ _ _ _ Hmk) as Hw2.
  set (w' := World (w_fs w2) (w_stdout w2) (w_stderr w2)
                   (w_log w2 ++ [EvRsync p tmp rc])).
  assert (Hrs : rsync E p tmp w2 = (Raise (CalledProcessError rc), w')).
  { unfold rsync, bind, get_world. rewrite Hrc.
    assert (Heff : match fs_lookup (w_fs w2) p with
                   | Some (Dir _) => rc
                   | _ => if decide (rc = 0%Z) then 23%Z else rc
                   end = rc).
    { destruct (fs_lookup (w_fs w2) p) as [[c|es]|]; [|done|];
        by rewrite decide_False. }
    rewrite Heff. unfold log_event. by rewrite decide_False. }
  assert (Hrun : prepare_overlays E (copied ++ p :: rest) w
                 = (Raise (CalledProcessError rc), w')).
  { unfold prepare_overlays in *. rewrite prepare_app. unfold bind at 1.
    rewrite Hprep. simpl. unfold bind at 1. rewrite Hmk. unfold bind at 1.
    by rewrite Hrs. }
  pose proof Hprep as Hprep1.
  apply prepare_spec in Hprep1 as (evs1 & Hl1 & _ & _ & _ & _ & _ & _ & Hok1).
  destruct (Hok1 m eq_refl) as (_ & _ & _ & _ & Hvals).
  pose proof Hrun as Hrun1.
  apply prepare_spec in Hrun1 as (evs & Hl & _ & _ & Hevs & Hcre & _ & _ & _).
  assert (Hevs' : evs = evs1 ++ [EvMkdtemp tmp; EvRsync p tmp rc]).
  { apply (app_inv_head (w_log w)). rewrite <- Hl. unfold w'. simpl.
    rewrite Hw2. simpl. rewrite Hl1, <- !app_assoc. done. }
  exists w', evs. split_and!; try done.
  - rewrite Hevs'. change [EvMkdtemp tmp; EvRsync p tmp rc]
      with ([EvMkdtemp tmp] ++ [EvRsync p tmp rc]).
    by rewrite app_assoc, last_snoc.
  - eapply Forall_impl; [exact Hevs|]. by intros [].
  - rewrite Hevs'. apply elem_of_app. right. apply list_elem_of_here.
  - intros q ov Hq. rewrite Hevs'. apply elem_of_app. left.
    destruct (Hvals ov (dict_values_lookup _ _ _ Hq)) as [Hov|Hov]; [|done].
    by apply elem_of_nil in Hov.
  - intros ov Hov. by destruct (Hcre ov Hov).
Qed.

Lemma prepare_failure_releases_nothing_witness :
  ∃ w' evs,
    prepare_overlays Examples.E_rsync2 ([Examples.proj] ++ Examples.docs :: [])
      (initial_world Examples.fs0) = (Raise (CalledProcessError 12%Z), w') ∧
    w_log w' = w_log (initial_world Examples.fs0) ++ evs ∧
    last evs = Some (EvRsync Examples.docs ["tmp"; "docs_overlay_aaa"] 12%Z) ∧
    Forall (λ e, is_rm_event e = false) evs ∧
    EvMkdtemp ["tmp"; "docs_overlay_aaa"] ∈ evs ∧
    (∀ (q ov : path),
       Dict [(Examples.proj, ["tmp"; "proj_overlay_a"])] !! q = Some ov →
       EvMkdtemp ov ∈ evs) ∧
    (∀ ov, EvMkdtemp ov ∈ evs → path_is_dir (w_fs w') ov = true).
Proof.
  apply (prepare_failure_releases_nothing Examples.E_rsync2 [Examples.proj]
           Examples.docs [] (initial_world Examples.fs0)
           (Dict [(Examples.proj, ["tmp"; "proj_overlay_a"])])
           (prepare_overlays Examples.E_rsync2 [Examples.proj]
              (initial_world Examples.fs0)).2
           ["tmp"; "docs_overlay_aaa"]
           (mkdtemp Examples.E_rsync2 (overlay_prefix Examples.docs)
              (prepare_overlays Examples.E_rsync2 [Examples.proj]
                 (initial_world Examples.fs0)).2).2
           12%Z).
  - vm_compute. reflexivity.
  - vm_compute. reflexivity.
  - vm_compute. reflexivity.
  - discriminate.
Defined.

(** C6 as stated fails: rsync fails on the second of two roots; the error
    that reaches the caller is [CalledProcessError] (the code has no
    [OverlayError]), and both overlay directories are still there. *)
Lemma prepare_failure_leaks_overlays :
  let out := prepare_overlays Examples.E_rsync2 [Examples.proj; Examples.docs]
               (initial_world Examples.fs0) in
  out.1 = Raise (CalledProcessError 12%Z) ∧
  w_log out.2 = [ EvMkdtemp ["tmp"; "proj_overlay_a"];
                  EvRsync Examples.proj ["tmp"; "proj_overlay_a"] 0%Z;
                  EvMkdtemp ["tmp"; "docs_overlay_aaa"];
                  EvRsync Examples.docs ["tmp"; "docs_overlay_aaa"] 12%Z ] ∧
  fs_lookup (w_fs out.2) ["tmp"; "proj_overlay_a"]
    = Some (Dir [("file.txt", File "one")]) ∧
  fs_lookup (w_fs out.2) ["tmp"; "docs_overlay_aaa"] = Some (Dir []).
Proof. vm_compute. by split_and!. Qed.

(** ** Isolation of the overlay *)




(** ** Change reporter: the records of one root *)

Lemma count_occ_NoDup (l : list string) (x : string) :
  NoDup l → count_occ String.string_dec l x = if decide (x ∈ l) then 1 else 0.
Proof.
  intros Hnd. case_decide as Hin.
  - apply NoDup_ListNoDup in Hnd.
    apply (proj1 (NoDup_count_occ' String.string_dec l) Hnd).
    by apply list_elem_of_In.
  - apply count_occ_not_In. by rewrite <- list_elem_of_In.
Qed.

Lemma NoDup_omap_inj {A B} (g : A → option B) (l : list A) :
  NoDup l →
  (∀ x y z, x ∈ l → y ∈ l → g x = Some z → g y = Some z → x = y) →
  NoDup (omap g l).
Proof.
  induction 1 as [|x l Hx Hnd IH]; intros Hinj; simpl; [constructor|].
  assert (NoDup (omap g l)) as IH'.
  { apply IH. intros a b z Ha Hb. apply Hinj; by apply list_elem_of_further. }
  destruct (g x) as [z|] eqn:Hgx; [|done].
  constructor; [|done].
  intros Hz. apply list_elem_of_omap in Hz as (y & Hy & Hgy).
  assert (x = y) as <-; [|done].
  apply (Hinj x y z); [apply list_elem_of_here|by apply list_elem_of_further|done..].
Qed.

(** The record written for a path of [start]. *)
Lemma changed_files_elem (start end_ : gmap string string) (r : string) :
  r ∈ changed_files start end_ ↔
  (∃ f d, start !! f = Some d ∧ end_ !! f = None ∧ r = "Removed: " +:+ f) ∨
  (∃ f d d', start !! f = Some d ∧ end_ !! f = Some d' ∧ d' ≠ d ∧
             r = "Modified: " +:+ f) ∨
  (∃ f, start !! f = None ∧ is_Some (end_ !! f) ∧ r = "Added: " +:+ f).
Proof.
  unfold changed_files. rewrite elem_of_app, list_elem_of_omap, list_elem_of_fmap.
  split.
  - intros [([f d] & Hin & Hg)|(f & -> & Hin)].
    + apply elem_of_map_to_list in Hin. simpl in Hg.
      destruct (end_ !! f) as [d'|] eqn:He.
      * case_decide; [|done]. injection Hg as <-. right. left. eauto 10.
      * injection Hg as <-. left. eauto.
    + apply elem_of_elements, elem_of_difference in Hin as [Hin Hnin].
      apply elem_of_dom in Hin. apply not_elem_of_dom in Hnin. right. right. eauto.
  - intros [(f & d & Hs & He & ->)|[(f & d & d' & Hs & He & Hne & ->)|(f & Hs & He & ->)]].
    + left. exists (f, d). split; [by apply elem_of_map_to_list|].
      simpl. by rewrite He.
    + left. exists (f, d). split; [by apply elem_of_map_to_list|].
      simpl. rewrite He. by rewrite decide_True.
    + right. exists f. split; [done|].
      apply elem_of_elements, elem_of_difference. split.
      * by apply elem_of_dom.
      * by apply not_elem_of_dom.
Qed.

Lemma changed_files_NoDup (start end_ : gmap string string) :
  NoDup (changed_files start end_).
Proof.
  unfold changed_files. apply NoDup_app. split_and!.
  - apply NoDup_omap_inj; [apply NoDup_map_to_list|].
    intros [f d] [f' d'] z Hin Hin'. simpl.
    apply elem_of_map_to_list in Hin. apply elem_of_map_to_list in Hin'.
    intros H1 H2.
    assert (f = f') as <-.
    { destruct (end_ !! f), (end_ !! f'); repeat case_decide; by simplify_eq. }
    by simplify_eq.
  - intros r Hr Hr'.
    apply list_elem_of_omap in Hr as ([f d] & _ & Hg). simpl in Hg.
    apply list_elem_of_fmap in Hr' as (f' & -> & _).
    destruct (end_ !! f); repeat case_decide; by simplify_eq.
  - apply NoDup_fmap_2; [|apply NoDup_elements].
    intros f f' H. by simplify_eq.
Qed.

Lemma diff_snapshots_lookup (initial final : gmap string (gmap string string))
    (root : string) :
  diff_snapshots initial final !! root =
  match initial !! root with
  | Some start =>
      match changed_files start (default ∅ (final !! root)) with
      | [] => None
      | c :: cs => Some (c :: cs)
      end
  | None => None
  end.
Proof.
  unfold diff_snapshots.
  assert (Hgen : ∀ (l : list (string * gmap string string))
                   (acc : gmap string (list string)),
    NoDup l.*1 →
    fold_left (λ result kv,
                 match changed_files kv.2 (default ∅ (final !! kv.1)) with
                 | [] => result
                 | _ :: _ => <[kv.1 := changed_files kv.2 (default ∅ (final !! kv.1))]> result
                 end) l acc !! root =
    match (list_to_map l : gmap string (gmap string string)) !! root with
    | Some start =>
        match changed_files start (default ∅ (final !! root)) with
        | [] => acc !! root
        | c :: cs => Some (c :: cs)
        end
    | None => acc !! root
    end).
  { induction l as [|[k v] l IH]; intros acc Hnd; simpl; [done|].
    apply NoDup_cons in Hnd as [Hk Hnd]. rewrite IH by done.
    assert (Hl : (list_to_map l : gmap string (gmap string string)) !! k = None)
      by (by apply not_elem_of_list_to_map_1).
    destruct (decide (k = root)) as [->|Hne].
    - rewrite lookup_insert_eq, Hl.
      destruct (changed_files v _) as [|c cs] eqn:Hc; [done|].
      by rewrite lookup_insert_eq.
    - rewrite lookup_insert_ne by done.
      destruct (list_to_map l !! root) as [start|] eqn:Hs.
      + destruct (changed_files start _); [|done].
        destruct (changed_files v _); [done|]. by rewrite lookup_insert_ne.
      + destruct (changed_files v _); [done|]. by rewrite lookup_insert_ne. }
  rewrite Hgen by apply NoDup_fst_map_to_list.
  rewrite list_to_map_to_list, lookup_empty.
  destruct (initial !! root) as [start|]; [|done].
  by destruct (changed_files start _).
Qed.

Lemma record_counts_spec (start end_ : gmap string string) (file : string) :
  record_counts (changed_files start end_) file =
  match start !! file, end_ !! file with
  | Some _, None => (1, 0, 0)
  | Some d, Some d' => if decide (d' = d) then (0, 0, 0) else (0, 1, 0)
  | None, Some _ => (0, 0, 1)
  | None, None => (0, 0, 0)
  end.
Proof.
  unfold record_counts.
  rewrite !count_occ_NoDup by apply changed_files_NoDup.
  assert (Hrem : "Removed: " +:+ file ∈ changed_files start end_ ↔
                 is_Some (start !! file) ∧ end_ !! file = None).
  { rewrite changed_files_elem. split.
    - intros [(f & d & Hs & He & Hr)|[(f & d & d' & Hs & He & Hne & Hr)|(f & Hs & He & Hr)]];
        simplify_eq. eauto.
    - intros [[d Hs] He]. left. eauto. }
  assert (Hmod : "Modified: " +:+ file ∈ changed_files start end_ ↔
                 ∃ d d', start !! file = Some d ∧ end_ !! file = Some d' ∧ d' ≠ d).
  { rewrite changed_files_elem. split.
    - intros [(f & d & Hs & He & Hr)|[(f & d & d' & Hs & He & Hne & Hr)|(f & Hs & He & Hr)]];
        simplify_eq. eauto.
    - intros (d & d' & Hs & He & Hne). right. left. eauto 10. }
  assert (Hadd : "Added: " +:+ file ∈ changed_files start end_ ↔
                 start !! file = None ∧ is_Some (end_ !! file)).
  { rewrite changed_files_elem. split.
    - intros [(f & d & Hs & He & Hr)|[(f & d & d' & Hs & He & Hne & Hr)|(f & Hs & He & Hr)]];
        simplify_eq. eauto.
    - intros [Hs He]. right. right. eauto. }
  destruct (decide ("Removed: " +:+ file ∈ changed_files start end_)) as [H1|H1];
  destruct (decide ("Modified: " +:+ file ∈ changed_files start end_)) as [H2|H2];
  destruct (decide ("Added: " +:+ file ∈ changed_files start end_)) as [H3|H3];
  rewrite ?Hrem, ?Hmod, ?Hadd in H1, H2, H3;
  destruct (start !! file) as [d|] eqn:Hs, (end_ !! file) as [d'|] eqn:He;
  try case_decide; naive_solver.
Qed.

Lemma changed_files_nil (start end_ : gmap string string) :
  changed_files start end_ = [] ↔ start = end_.
Proof.
  split.
  - intros Hnil. apply map_eq. intros f.
    pose proof (record_counts_spec start end_ f) as Hc. rewrite Hnil in Hc.
    unfold record_counts in Hc. simpl in Hc.
    destruct (start !! f), (end_ !! f); try done.
    case_decide; by simplify_eq.
  - intros <-. apply elem_of_nil_inv. intros r Hr.
    apply changed_files_elem in Hr
      as [(f & d & Hs & He & _)|[(f & d & d' & Hs & He & Hne & _)|(f & Hs & [d He] & _)]];
      by simplify_eq.
Qed.

(** C2: for the snapshots [pre] and [post] of one root, [diff_snapshots]
    writes exactly one [Removed] record for a path in [pre] only, exactly one
    [Modified] record for a path in both with different digests, exactly one
    [Added] record for a path in [post] only, and no record for a path with
    the same digest in both; every record is one of these; and a root with no
    difference is absent from the result, never mapped to the empty list. *)
Theorem diff_snapshots_classifies (initial final : gmap string (gmap string string))
    (root : string) (pre : gmap string string) :
  initial !! root = Some pre →
  let post := default ∅ (final !! root) in
  let changed := default [] (diff_snapshots initial final !! root) in
  (∀ file,
     record_counts changed file =
     match pre !! file, post !! file with
     | Some _, None => (1, 0, 0)
     | Some d, Some d' => if decide (d' = d) then (0, 0, 0) else (0, 1, 0)
     | None, Some _ => (0, 0, 1)
     | None, None => (0, 0, 0)
     end) ∧
  (∀ r, r ∈ changed →
        ∃ file, r = "Removed: " +:+ file ∨ r = "Modified: " +:+ file ∨
                r = "Added: " +:+ file) ∧
  diff_snapshots initial final !! root ≠ Some [] ∧
  (diff_snapshots initial final !! root = None ↔ pre = post).
Proof.
  intros Hpre post changed.
  assert (Hch : changed = changed_files pre post).
  { unfold changed. rewrite diff_snapshots_lookup, Hpre. fold post.
    by destruct (changed_files pre post). }
  split_and!.
  - intros file. rewrite Hch. apply record_counts_spec.
  - intros r. rewrite Hch, changed_files_elem.
    intros [(f & d & _ & _ & ->)|[(f & d & d' & _ & _ & _ & ->)|(f & _ & _ & ->)]]; eauto.
  - rewrite diff_snapshots_lookup, Hpre. by destruct (changed_files pre _).
  - rewrite <- changed_files_nil. rewrite diff_snapshots_lookup, Hpre. fold post.
    by destruct (changed_files pre post).
Qed.

(** ** Snapshotter: what a snapshot holds *)

Lemma snapshot_items_app (a b : list walk_item) :
  snapshot_items (a ++ b) = snapshot_items a ++ snapshot_items b.
Proof. unfold snapshot_items. apply flat_map_app. Qed.

Lemma snapshot_items_flat_map {A} (g : A → list walk_item) (l : list A) :
  snapshot_items (flat_map g l) = flat_map (λ x, snapshot_items (g x)) l.
Proof.
  induction l as [|x l IH]; simpl; [done|].
  by rewrite snapshot_items_app, IH.
Qed.


Lemma tree_snapshot_dir (rel : string) (es : list (string * node)) :
  tree_snapshot rel (Dir es) =
  map (λ f, (rel +:+ f.1, hash_file f.2)) (file_entries es) ++
  flat_map (λ e, tree_snapshot (rel +:+ e.1 +:+ "/") e.2) es.
Proof.
  unfold tree_snapshot. simpl walk.
  change (snapshot_items (?it :: ?l)) with (snapshot_items ([it] ++ l)).
  rewrite snapshot_items_app, snapshot_items_flat_map. simpl.
  by rewrite app_nil_r.
Qed.

Lemma entry_set_same (c : string) (n : node) (es : list (string * node)) :
  entry_get c es = Some n → entry_set c n es = es.
Proof.
  induction es as [|[k v] es IH]; simpl; [done|].
  destruct (decide (k = c)) as [->|Hne]; [by intros [= ->]|].
  intros Hg. by rewrite IH.
Qed.

Lemma entry_set_absent (c : string) (n : node) (es : list (string * node)) :
  entry_get c es = None → entry_set c n es = es ++ [(c, n)].
Proof.
  induction es as [|[k v] es IH]; simpl; [done|].
  destruct (decide (k = c)) as [->|Hne]; [done|].
  intros Hg. by rewrite IH.
Qed.

Lemma entry_filter_absent (c : string) (es : list (string * node)) :
  entry_get c es = None → filter (λ e, e.1 ≠ c) es = es.
Proof.
  induction es as [|[k v] es IH]; simpl; [done|].
  destruct (decide (k = c)) as [->|Hne]; [done|].
  intros Hg. rewrite filter_cons, decide_True by done. by rewrite IH.
Qed.

Lemma entry_get_elem (c : string) (n : node) (es : list (string * node)) :
  entry_get c es = Some n → (c, n) ∈ es.
Proof.
  induction es as [|[k v] es IH]; simpl; [done|].
  destruct (decide (k = c)) as [->|Hne].
  - intros [= ->]. apply list_elem_of_here.
  - intros Hg. by apply list_elem_of_further, IH.
Qed.

Lemma entry_get_None_names (c : string) (es : list (string * node)) :
  entry_get c es = None ↔ c ∉ es.*1.
Proof.
  induction es as [|[k v] es IH]; simpl.
  - split; [intros _ Hin; by apply elem_of_nil in Hin|done].
  - rewrite not_elem_of_cons. destruct (decide (k = c)) as [->|Hne]; naive_solver.
Qed.

Lemma file_entries_cons (k : string) (v : node) (es : list (string * node)) :
  file_entries ((k, v) :: es) =
  match v with
  | File x => (k, x) :: file_entries es
  | Dir _ => file_entries es
  end.
Proof. by destruct v. Qed.

(** Altering the first entry named [c] by a function that keeps files as they
    are and directories as directories keeps the files of the directory. *)
Lemma file_entries_entry_map (c : string) (g : node → node)
    (es : list (string * node)) :
  (∀ x, g (File x) = File x) →
  (∀ l, is_dir_node (g (Dir l)) = true) →
  file_entries (entry_map c g es) = file_entries es.
Proof.
  intros Hf Hd.
  induction es as [|[k v] es IH]; [done|].
  cbn [entry_map]. destruct (decide (k = c)) as [->|Hne].
  - rewrite !file_entries_cons. destruct v as [x|l].
    + by rewrite Hf.
    + specialize (Hd l). by destruct (g (Dir l)).
  - rewrite !file_entries_cons, IH. done.
Qed.

Lemma flat_map_entry_map {B} (F : string → node → list B) (c : string)
    (g : node → node) (es : list (string * node)) :
  (∀ v, entry_get c es = Some v → F c (g v) = F c v) →
  flat_map (λ e, F e.1 e.2) (entry_map c g es) = flat_map (λ e, F e.1 e.2) es.
Proof.
  induction es as [|[k v] es IH]; simpl; [done|].
  destruct (decide (k = c)) as [->|Hne]; simpl; intros Hg.
  - by rewrite Hg.
  - by rewrite IH.
Qed.

Lemma tree_snapshot_entry_map (rel c : string) (g : node → node)
    (es : list (string * node)) :
  (∀ x, g (File x) = File x) →
  (∀ l, is_dir_node (g (Dir l)) = true) →
  (∀ v rel', entry_get c es = Some v → tree_snapshot rel' (g v) = tree_snapshot rel' v) →
  tree_snapshot rel (Dir (entry_map c g es)) = tree_snapshot rel (Dir es).
Proof.
  intros Hf Hd Hg. rewrite !tree_snapshot_dir.
  rewrite file_entries_entry_map by done. f_equal.
  apply (flat_map_entry_map (λ k v, tree_snapshot (rel +:+ k +:+ "/") v)).
  intros v Hv. by apply Hg.
Qed.

(** A new empty directory adds nothing to the snapshot. *)
Lemma tree_snapshot_new_dir (rel c : string) (es : list (string * node)) :
  tree_snapshot rel (Dir (es ++ [(c, Dir [])])) = tree_snapshot rel (Dir es).
Proof.
  rewrite !tree_snapshot_dir. unfold file_entries.
  rewrite omap_app, flat_map_app. simpl. by rewrite !app_nil_r.
Qed.

Lemma file_entries_filter_dir (c : string) (l : list (string * node))
    (es : list (string * node)) :
  NoDup es.*1 →
  entry_get c es = Some (Dir l) →
  file_entries (filter (λ e, e.1 ≠ c) es) = file_entries es.
Proof.
  induction es as [|[k v] es IH]; [done|].
  cbn [entry_get fmap list_fmap]. intros Hnd Hget.
  apply NoDup_cons in Hnd as [Hk Hnd]. rewrite filter_cons. cbn [fst].
  destruct (decide (k = c)) as [->|Hne].
  - injection Hget as ->. rewrite decide_False by (by intros ?).
    rewrite entry_filter_absent by (by apply entry_get_None_names).
    by rewrite file_entries_cons.
  - rewrite decide_True by done. rewrite !file_entries_cons, IH by done. done.
Qed.

Lemma flat_map_filter_entry {B} (F : string → node → list B) (c : string) (v : node)
    (es : list (string * node)) :
  NoDup es.*1 →
  entry_get c es = Some v →
  F c v = [] →
  flat_map (λ e, F e.1 e.2) (filter (λ e, e.1 ≠ c) es) = flat_map (λ e, F e.1 e.2) es.
Proof.
  induction es as [|[k x] es IH]; [done|].
  cbn [entry_get fmap list_fmap]. intros Hnd Hget HF.
  apply NoDup_cons in Hnd as [Hk Hnd]. rewrite filter_cons. cbn [fst].
  destruct (decide (k = c)) as [->|Hne].
  - injection Hget as ->. rewrite decide_False by (by intros ?).
    rewrite entry_filter_absent by (by apply entry_get_None_names).
    simpl. by rewrite HF.
  - rewrite decide_True by done. simpl. by rewrite IH.
Qed.

(** Removing the empty directory named [c], the only entry of that name. *)
Lemma tree_snapshot_remove_dir (rel c : string) (es : list (string * node)) :
  NoDup es.*1 →
  entry_get c es = Some (Dir []) →
  tree_snapshot rel (Dir (filter (λ e, e.1 ≠ c) es)) = tree_snapshot rel (Dir es).
Proof.
  intros Hnd Hget. rewrite !tree_snapshot_dir.
  rewrite (file_entries_filter_dir c []) by done. f_equal.
  apply (flat_map_filter_entry (λ k v, tree_snapshot (rel +:+ k +:+ "/") v) c (Dir []));
    [done..|].
  by rewrite tree_snapshot_dir.
Qed.

Lemma unique_names_dir (es : list (string * node)) :
  unique_names (Dir es) = true →
  NoDup es.*1 ∧ ∀ c v, entry_get c es = Some v → unique_names v = true.
Proof.
  simpl. intros [Hnd Hall]%andb_prop. split.
  - by apply bool_decide_eq_true in Hnd.
  - intros c v Hv. apply entry_get_elem, list_elem_of_In in Hv.
    by apply (proj1 (forallb_forall _ _) Hall (c, v)).
Qed.

(** ** Updates that leave every snapshot as it is *)

Section benign_update.
Variable f : option node → option node.
Variable good : node → Prop.

Hypothesis good_child :
  ∀ es c v, good (Dir es) → entry_get c es = Some v → good v.
Hypothesis f_below :
  ∀ o D, snapshot_below (f o) D = snapshot_below o D.
Hypothesis alter_single :
  ∀ rel c es, good (Dir es) →
    tree_snapshot rel (Dir (entry_alter f c es)) = tree_snapshot rel (Dir es).

Lemma fs_alter_keeps_file (p : path) (x : string) : fs_alter f p (File x) = File x.
Proof. by destruct p. Qed.

Lemma fs_alter_keeps_dir (p : path) (l : list (string * node)) :
  is_dir_node (fs_alter f p (Dir l)) = true.
Proof. destruct p as [|c [|c1 p1]]; done. Qed.

Lemma tree_snapshot_alter (p : path) :
  ∀ n rel, good n → tree_snapshot rel (fs_alter f p n) = tree_snapshot rel n.
Proof.
  induction p as [|c p IH]; intros n rel Hgood; [done|].
  destruct n as [x|es]; [done|].
  destruct p as [|c1 p1].
  - rewrite fs_alter_single. by apply alter_single.
  - rewrite fs_alter_cons by done.
    apply tree_snapshot_entry_map.
    + intros x. apply fs_alter_keeps_file.
    + intros l. apply fs_alter_keeps_dir.
    + intros v rel' Hv. apply IH. by eapply good_child.
Qed.

Lemma snapshot_below_alter (D : path) :
  ∀ p n, good n →
    snapshot_below (Some (fs_alter f p n)) D = snapshot_below (Some n) D.
Proof.
  induction D as [|c D IH]; intros p n Hgood.
  - unfold snapshot_below. simpl. by apply tree_snapshot_alter.
  - destruct n as [x|es]; [by rewrite fs_alter_keeps_file|].
    destruct p as [|c2 [|c1 p1]]; [done| |].
    + rewrite fs_alter_single. unfold snapshot_below. simpl.
      rewrite entry_get_alter. destruct (decide (c2 = c)) as [->|Hne]; [|done].
      apply (f_below (entry_get c es) D).
    + rewrite fs_alter_cons by done. unfold snapshot_below. simpl.
      rewrite entry_get_map. destruct (decide (c2 = c)) as [->|Hne]; [|done].
      destruct (entry_get c es) as [child|] eqn:Hc; [|done]. simpl.
      apply (IH (c1 :: p1) child). by eapply good_child.
Qed.
End benign_update.

Lemma os_walk_snapshot_below (fs : node) (D : path) :
  snapshot_items (os_walk fs D) = snapshot_below (Some fs) D.
Proof.
  unfold os_walk, snapshot_below. simpl. by destruct (fs_lookup fs D).
Qed.

Lemma snapshot_below_empty_dir (D : path) : snapshot_below (Some (Dir [])) D = [].
Proof. by destruct D. Qed.

Lemma snapshot_directory_mkdir (p : path) (fs : node) (D : path) :
  snapshot_directory (fs_mkdir p fs) D = snapshot_directory fs D.
Proof.
  unfold snapshot_directory. rewrite !os_walk_snapshot_below. f_equal.
  unfold fs_mkdir. apply (snapshot_below_alter _ (λ _, True)); try done.
  - intros [n|] D'; [done|]. apply snapshot_below_empty_dir.
  - intros rel c es _. unfold entry_alter.
    destruct (entry_get c es) as [v|] eqn:Hv.
    + by rewrite entry_set_same.
    + rewrite entry_set_absent by done. apply tree_snapshot_new_dir.
Qed.

Lemma snapshot_directory_rmdir (p : path) (fs : node) (D : path) :
  unique_names fs = true →
  snapshot_directory (fs_rmdir p fs) D = snapshot_directory fs D.
Proof.
  intros Hu. unfold snapshot_directory. rewrite !os_walk_snapshot_below. f_equal.
  unfold fs_rmdir. apply (snapshot_below_alter _ (λ n, unique_names n = true)); try done.
  - intros es c v Hes Hv. by eapply unique_names_dir.
  - intros [[x|[|e l]]|] D'; try done. by rewrite snapshot_below_empty_dir.
  - intros rel c es Hes. apply unique_names_dir in Hes as [Hnd _].
    unfold entry_alter.
    destruct (entry_get c es) as [[x|[|e l]]|] eqn:Hv.
    + by rewrite entry_set_same.
    + by apply tree_snapshot_remove_dir.
    + by rewrite entry_set_same.
    + by rewrite entry_filter_absent.
Qed.

(** ** Snapshotter: keys are files *)

Lemma string_concat_cons (c : string) (comps : list string) :
  comps ≠ [] → String.concat "/" (c :: comps) = c +:+ "/" +:+ String.concat "/" comps.
Proof. by destruct comps. Qed.

Lemma file_entries_elem (name content : string) (es : list (string * node)) :
  (name, content) ∈ file_entries es ↔ (name, File content) ∈ es.
Proof.
  unfold file_entries. rewrite list_elem_of_omap. split.
  - intros ([k v] & Hin & Hv). simpl in Hv. destruct v; by simplify_eq.
  - intros Hin. exists (name, File content). done.
Qed.

Lemma tree_snapshot_elem (n : node) :
  ∀ rel k h, (k, h) ∈ tree_snapshot rel n →
    ∃ comps content,
      comps ≠ [] ∧ at_path n comps (File content) ∧
      k = rel +:+ String.concat "/" comps ∧ h = hash_file content.
Proof.
  induction n as [x|es IH] using node_ind'; intros rel k h Hin.
  - by apply elem_of_nil in Hin.
  - rewrite tree_snapshot_dir in Hin. apply elem_of_app in Hin as [Hin|Hin].
    + apply list_elem_of_fmap in Hin as ([name content] & [= -> ->] & Hin).
      apply file_entries_elem in Hin.
      exists [name], content. split_and!; try done.
      apply (at_below es name (File content)); [done|constructor].
    + apply list_elem_of_In, in_flat_map in Hin as ([name child] & Hin & Hk).
      apply list_elem_of_In in Hin, Hk. simpl in Hk.
      pose proof (proj1 (Forall_forall _ _) IH (name, child) Hin) as IHc.
      destruct (IHc _ _ _ Hk) as (comps & content & Hne & Hat & -> & ->).
      exists (name :: comps), content. split_and!; try done.
      * by apply (at_below es name child).
      * rewrite string_concat_cons by done. by rewrite !string_app_assoc.
Qed.

Lemma only_dirs_snapshot (n : node) :
  ∀ rel, only_dirs n = true → tree_snapshot rel n = [].
Proof.
  induction n as [x|es IH] using node_ind'; intros rel Hd; [done|].
  rewrite tree_snapshot_dir. simpl in Hd.
  induction es as [|[k v] es IHes]; [done|].
  simpl in Hd. apply andb_prop in Hd as [Hv Hd].
  apply Forall_cons in IH as [IHv IH].
  rewrite file_entries_cons. destruct v as [x|l]; [done|].
  simpl. rewrite (IHv _ Hv). simpl. by apply IHes.
Qed.

Lemma fold_insert_lookup_elem (l : list (string * string)) :
  ∀ (acc : gmap string string) k h,
    fold_left (λ mapping kv, <[kv.1 := kv.2]> mapping) l acc !! k = Some h →
    (k, h) ∈ l ∨ acc !! k = Some h.
Proof.
  induction l as [|[k0 h0] l IH]; intros acc k h; simpl; [by right|].
  intros Hl. apply IH in Hl as [Hin|Hacc].
  - left. by apply list_elem_of_further.
  - destruct (decide (k0 = k)) as [->|Hne].
    + rewrite lookup_insert_eq in Hacc. injection Hacc as ->.
      left. apply list_elem_of_here.
    + rewrite lookup_insert_ne in Hacc by done. by right.
Qed.

Lemma snapshot_directories_ext (fs fs' : node) (roots : list path) :
  (∀ D, snapshot_directory fs' D = snapshot_directory fs D) →
  snapshot_directories fs' roots = snapshot_directories fs roots.
Proof.
  intros Hext. unfold snapshot_directories. generalize (∅ : gmap string (gmap string string)).
  induction roots as [|p roots IH]; intros acc; simpl; [done|].
  by rewrite Hext, IH.
Qed.

Lemma diff_snapshots_same (m : gmap string (gmap string string)) :
  diff_snapshots m m = ∅.
Proof.
  apply map_eq. intros root. rewrite diff_snapshots_lookup, lookup_empty.
  destruct (m !! root) as [s|]; [|done]. simpl.
  by rewrite (proj2 (changed_files_nil s s) eq_refl).
Qed.

(** C10: every key of a snapshot is the relative path of a regular file
    below the snapshotted directory (and its value the digest of such a
    file); a tree of directories only has the empty snapshot; creating an
    empty directory, or removing one, leaves no record in [diff_snapshots]. *)
Theorem snapshot_holds_files_only (fs : node) (D : path) :
  (∀ k h, snapshot_directory fs D !! k = Some h →
     ∃ root comps content,
       fs_lookup fs D = Some root ∧ comps ≠ [] ∧
       at_path root comps (File content) ∧
       k = String.concat "/" comps ∧ h = hash_file content) ∧
  (∀ root, fs_lookup fs D = Some root → only_dirs root = true →
           snapshot_directory fs D = ∅) ∧
  (∀ p roots,
     diff_snapshots (snapshot_directories fs roots)
                    (snapshot_directories (fs_mkdir p fs) roots) = ∅) ∧
  (∀ p roots, unique_names fs = true →
     diff_snapshots (snapshot_directories fs roots)
                    (snapshot_directories (fs_rmdir p fs) roots) = ∅).
Proof.
  split_and!.
  - intros k h Hk. unfold snapshot_directory in Hk.
    apply fold_insert_lookup_elem in Hk as [Hin|Hin]; [|by rewrite lookup_empty in Hin].
    unfold os_walk in Hin. destruct (fs_lookup fs D) as [root|]; [|by apply elem_of_nil in Hin].
    apply (tree_snapshot_elem root "") in Hin as (comps & content & ? & ? & ? & ?).
    exists root, comps, content. done.
  - intros root Hroot Hd. unfold snapshot_directory, os_walk. rewrite Hroot.
    fold (tree_snapshot "" root). by rewrite only_dirs_snapshot.
  - intros p roots.
    rewrite (snapshot_directories_ext fs (fs_mkdir p fs))
      by (intros D'; apply snapshot_directory_mkdir).
    apply diff_snapshots_same.
  - intros p roots Hu.
    rewrite (snapshot_directories_ext fs (fs_rmdir p fs))
      by (intros D'; by apply snapshot_directory_rmdir).
    apply diff_snapshots_same.
Qed.

(** ** Python's order on (name, digest) tuples *)

Lemma string_compare_refl (s : string) : String.compare s s = Eq.
Proof.
  pose proof (String.compare_antisym s s) as H.
  destruct (String.compare s s); done.
Qed.

Lemma string_leb_refl (s : string) : String.leb s s = true.
Proof. unfold String.leb. by rewrite string_compare_refl. Qed.

Lemma string_leb_trans (a b c : string) :
  String.leb a b = true → String.leb b c = true → String.leb a c = true.
Proof.
  intros H1 H2. apply Is_true_true. apply Is_true_true in H1, H2.
  exact (transitivity (R := String.le) H1 H2).
Qed.

Lemma string_compare_Lt (a b : string) :
  String.compare a b = Lt ↔ String.leb a b = true ∧ a ≠ b.
Proof.
  unfold String.leb. split.
  - intros H. rewrite H. split; [done|]. intros ->.
    by rewrite string_compare_refl in H.
  - intros [H Hne]. destruct (String.compare a b) eqn:Hc; try done.
    by apply String.compare_eq_iff in Hc.
Qed.

Lemma entry_le_alt (a b : string * string) :
  entry_le a b ↔
  (String.leb a.1 b.1 = true ∧ a.1 ≠ b.1) ∨ (a.1 = b.1 ∧ String.leb a.2 b.2 = true).
Proof.
  unfold entry_le, entry_leb.
  destruct (String.compare a.1 b.1) eqn:Hc.
  - apply String.compare_eq_iff in Hc. split; [by right|].
    intros [[_ ?]|[_ ?]]; done.
  - apply string_compare_Lt in Hc. split; [by left|done].
  - split; [done|]. intros [[Hl ?]|[He ?]].
    + unfold String.leb in Hl. by rewrite Hc in Hl.
    + rewrite He, string_compare_refl in Hc. done.
Qed.

Lemma entry_le_total : Total entry_le.
Proof.
  intros a b. rewrite !entry_le_alt.
  destruct (decide (a.1 = b.1)) as [He|Hne].
  - destruct (String.leb_total a.2 b.2); [left|right]; right; done.
  - destruct (String.leb_total a.1 b.1); [left|right]; left; done.
Qed.

Lemma entry_le_antisym : AntiSymm (=) entry_le.
Proof.
  intros [a1 a2] [b1 b2]. rewrite !entry_le_alt. simpl.
  intros [[H1 Hn1]|[-> H1]] [[H2 Hn2]|[He H2]]; try done.
  - destruct Hn1. by apply String.leb_antisym.
  - f_equal. by apply String.leb_antisym.
Qed.

Lemma entry_le_trans : Transitive entry_le.
Proof.
  intros [a1 a2] [b1 b2] [c1 c2]. rewrite !entry_le_alt. simpl.
  intros [[H1 Hn1]|[-> H1]] [[H2 Hn2]|[-> H2]].
  - left. split; [by eapply string_leb_trans|].
    intros ->. destruct Hn1. by apply String.leb_antisym.
  - left. done.
  - left. done.
  - right. split; [done|]. by eapply string_leb_trans.
Qed.

(** [sorted] gives the same list for every order of the same entries. *)
Lemma sorted_entries_perm (l1 l2 : list (string * string)) :
  l1 ≡ₚ l2 → sorted_entries l1 = sorted_entries l2.
Proof.
  intros Hp. unfold sorted_entries.
  apply (@Sorted_unique _ entry_le entry_le_trans entry_le_antisym).
  - apply (@Sorted_merge_sort _ entry_le _ entry_le_total).
  - apply (@Sorted_merge_sort _ entry_le _ entry_le_total).
  - by rewrite !merge_sort_Permutation.
Qed.

(** ** Hasher: the fingerprint depends on the tree, not on the walk *)

Lemma merkle_entries_perm (items : list walk_item) :
  merkle_entries items ≡ₚ
  map (λ f, (f.1, hash_file f.2)) (tree_files items) ++
  map (λ d, (d, "")) (tree_dirs items).
Proof.
  unfold merkle_entries, tree_files, tree_dirs.
  induction items as [|[[rel dirs] files] items IH]; simpl; [done|].
  rewrite !map_app, IH. unfold sorted_files, sorted_names.
  rewrite !merge_sort_Permutation. rewrite !map_map. simpl.
  rewrite <- !app_assoc. apply Permutation_app_head.
  rewrite !app_assoc. apply Permutation_app_tail.
  apply Permutation_app_comm.
Qed.




(** ** The two diffs side by side *)

Lemma fold_insert_list_to_map (l : list (string * string)) :
  NoDup l.*1 →
  ∀ acc : gmap string string,
    fold_left (λ m kv, <[kv.1 := kv.2]> m) l acc = list_to_map l ∪ acc.
Proof.
  induction l as [|[k v] l IH]; intros Hnd acc; simpl.
  - by rewrite (left_id_L ∅ (∪)).
  - apply NoDup_cons in Hnd as [Hk Hnd]. rewrite IH by done.
    rewrite <- insert_union_l. rewrite insert_union_r; [done|].
    by apply not_elem_of_list_to_map_1.
Qed.

Lemma snapshot_items_tree_files (items : list walk_item) :
  snapshot_items items = map (λ f, (f.1, hash_file f.2)) (tree_files items).
Proof.
  unfold snapshot_items, tree_files.
  induction items as [|[[rel dirs] files] items IH]; simpl; [done|].
  rewrite map_app, IH, map_map. done.
Qed.

Lemma snapshot_items_keys (items : list walk_item) :
  (snapshot_items items).*1 = (tree_files items).*1.
Proof.
  rewrite snapshot_items_tree_files.
  induction (tree_files items) as [|x l IH]; [done|]. csimpl. by rewrite IH.
Qed.

(** With pairwise distinct file paths, the snapshot mapping determines the
    list of pairs up to order. *)
Lemma snapshot_directory_items (fs : node) (D : path) :
  NoDup (tree_files (os_walk fs D)).*1 →
  map_to_list (snapshot_directory fs D) ≡ₚ snapshot_items (os_walk fs D).
Proof.
  intros Hnd. rewrite <- snapshot_items_keys in Hnd.
  unfold snapshot_directory. rewrite fold_insert_list_to_map by done.
  rewrite (right_id_L ∅ (∪)). by apply map_to_list_to_map.
Qed.

Lemma fold_insert_lookup_last {V} (key : path → string) (val : path → V)
    (paths : list path) (p : path) :
  p ∈ paths →
  (∀ q, q ∈ paths → key q = key p → q = p) →
  ∀ acc : gmap string V,
    fold_left (λ m q, <[key q := val q]> m) paths acc !! key p = Some (val p).
Proof.
  induction paths as [|q l IH] using rev_ind; intros Hin Huniq acc.
  { by apply elem_of_nil in Hin. }
  rewrite fold_left_app. simpl.
  destruct (decide (key q = key p)) as [Heq|Hne].
  - assert (q = p) as ->.
    { apply Huniq; [|done]. apply elem_of_app. right. apply list_elem_of_here. }
    by rewrite lookup_insert_eq.
  - rewrite lookup_insert_ne by done. apply IH.
    + apply elem_of_app in Hin as [?|Hin]; [done|].
      apply elem_of_cons in Hin as [->|Hin]; [done|by apply elem_of_nil in Hin].
    + intros q' Hq'. apply Huniq. apply elem_of_app. by left.
Qed.

Lemma diff_hashes_elem (initial final : gmap string string) (k : string) :
  k ∈ diff_hashes initial final ↔
  ∃ h, initial !! k = Some h ∧ final !! k ≠ Some h.
Proof.
  unfold diff_hashes. rewrite list_elem_of_omap. split.
  - intros ([k' h] & Hin & Hk). apply elem_of_map_to_list in Hin. simpl in Hk.
    case_decide; [|done]. injection Hk as ->. exists h. split; [done|]. congruence.
  - intros (h & Hi & Hf). exists (k, h). split; [by apply elem_of_map_to_list|].
    simpl. rewrite decide_True; [done|congruence].
Qed.

(** C4, as the code has it: when a root's fingerprint differs between the
    two states (the root is in the result of [diff_hashes]), then the root
    has at least one record in the result of [diff_snapshots], or its set of
    sub-directory paths has changed.  The relative file paths of the root are
    pairwise distinct in each state, and no other root prints as this one. *)
Theorem fingerprint_change_is_explained (fs fs' : node) (paths : list path) (p : path) :
  p ∈ paths →
  (∀ q, q ∈ paths → str_path q = str_path p → q = p) →
  NoDup (tree_files (os_walk fs p)).*1 →
  NoDup (tree_files (os_walk fs' p)).*1 →
  str_path p ∈ diff_hashes (compute_initial_hashes fs paths)
                           (compute_final_hashes fs' paths) →
  is_Some (diff_snapshots (snapshot_directories fs paths)
                          (snapshot_directories fs' paths) !! str_path p)
  ∨ ¬ tree_dirs (os_walk fs p) ≡ₚ tree_dirs (os_walk fs' p).
Proof.
  intros Hin Huniq Hnd Hnd' Hflag.
  apply diff_hashes_elem in Hflag as (h & Hi & Hf).
  unfold compute_final_hashes, compute_initial_hashes in Hi, Hf.
  rewrite (fold_insert_lookup_last str_path (merkle_hash fs)) in Hi by done.
  rewrite (fold_insert_lookup_last str_path (merkle_hash fs')) in Hf by done.
  injection Hi as <-.
  match goal with |- is_Some ?o ∨ _ => destruct o as [l|] eqn:Hdiff end;
    [left; eauto|right].
  intros Hdirs. apply Hf. f_equal. symmetry.
  rewrite diff_snapshots_lookup in Hdiff.
  unfold snapshot_directories in Hdiff.
  rewrite (fold_insert_lookup_last str_path (snapshot_directory fs)) in Hdiff by done.
  rewrite (fold_insert_lookup_last str_path (snapshot_directory fs')) in Hdiff by done.
  simpl in Hdiff.
  destruct (changed_files _ _) eqn:Hch in Hdiff; [|done].
  apply changed_files_nil in Hch.
  unfold merkle_hash, merkle_fold. do 2 f_equal.
  apply sorted_entries_perm. rewrite !merkle_entries_perm.
  rewrite <- !snapshot_items_tree_files.
  rewrite <- !snapshot_directory_items by done.
  by rewrite Hch, Hdirs.
Qed.

Lemma fingerprint_change_is_explained_witness :
  is_Some (diff_snapshots (snapshot_directories Examples.one [["r"]])
                          (snapshot_directories Examples.two [["r"]]) !! str_path ["r"])
  ∨ ¬ tree_dirs (os_walk Examples.one ["r"]) ≡ₚ tree_dirs (os_walk Examples.two ["r"]).
Proof.
  apply (fingerprint_change_is_explained Examples.one Examples.two [["r"]] ["r"]).
  - apply list_elem_of_here.
  - intros q Hq _. by apply list_elem_of_singleton in Hq.
  - vm_compute. apply NoDup_singleton.
  - vm_compute. apply NoDup_singleton.
  - vm_compute. apply list_elem_of_here.
Defined.

(** C4 as stated fails in both directions: creating an empty directory
    changes the fingerprint of the root and leaves no record; and replacing
    two files by one whose name glues their names around a digest leaves
    three records and the fingerprint as it was. *)
Lemma diffs_disagree :
  (str_path ["r"] ∈
     diff_hashes (compute_initial_hashes (Examples.in_r Examples.tree_plain) [["r"]])
                 (compute_final_hashes (Examples.in_r Examples.tree_with_empty_dir) [["r"]]) ∧
   diff_snapshots (snapshot_directories (Examples.in_r Examples.tree_plain) [["r"]])
                  (snapshot_directories (Examples.in_r Examples.tree_with_empty_dir) [["r"]])
     !! str_path ["r"] = None) ∧
  (diff_hashes (compute_initial_hashes (Examples.in_r Examples.tree_two_files) [["r"]])
               (compute_final_hashes (Examples.in_r Examples.tree_glued) [["r"]]) = [] ∧
   length (default [] (diff_snapshots
                         (snapshot_directories (Examples.in_r Examples.tree_two_files) [["r"]])
                         (snapshot_directories (Examples.in_r Examples.tree_glued) [["r"]])
                       !! str_path ["r"])) = 3).
Proof.
  split_and!.
  - vm_compute. apply list_elem_of_here.
  - vm_compute. reflexivity.
  - vm_compute. reflexivity.
  - vm_compute. reflexivity.
Qed.

Lemma diff_snapshots_classifies_witness :
  let initial : gmap string (gmap string string) := {[ "/r" := Examples.snap_pre ]} in
  let final : gmap string (gmap string string) := {[ "/r" := Examples.snap_post ]} in
  let changed := default [] (diff_snapshots initial final !! "/r") in
  record_counts changed "a" = (0, 0, 0) ∧
  record_counts changed "b" = (0, 1, 0) ∧
  record_counts changed "c" = (1, 0, 0) ∧
  record_counts changed "d" = (0, 0, 1) ∧
  diff_snapshots initial final !! "/r" ≠ Some [].
Proof.
  intros initial final changed.
  destruct (diff_snapshots_classifies initial final "/r" Examples.snap_pre)
    as (Hcount & _ & Hne & _).
  { vm_compute. reflexivity. }
  split_and!; [apply (Hcount "a")|apply (Hcount "b")|apply (Hcount "c")
              |apply (Hcount "d")|exact Hne].
Defined.

(** ** Snapshotter: idempotence *)

(** C9: two calls of [snapshot_directory] on the same directory, with nothing
    done in between, give the same mapping and leave the world as it was;
    the mapping is also the same when the second walk enumerates the same
    files in another order. *)
Theorem snapshot_directory_idempotent (w : world) (D : path) :
  (∃ s, snapshot_twice D w = (Ret (s, s), w)) ∧
  (∀ fs', NoDup (tree_files (os_walk (w_fs w) D)).*1 →
          tree_files (os_walk fs' D) ≡ₚ tree_files (os_walk (w_fs w) D) →
          snapshot_directory fs' D = snapshot_directory (w_fs w) D).
Proof.
  split.
  - exists (snapshot_directory (w_fs w) D). done.
  - intros fs' Hnd Hperm.
    assert (Hnd' : NoDup (tree_files (os_walk fs' D)).*1) by (by rewrite Hperm).
    unfold snapshot_directory.
    rewrite !fold_insert_list_to_map by (by rewrite snapshot_items_keys).
    f_equal. apply list_to_map_proper; [by rewrite snapshot_items_keys|].
    rewrite !snapshot_items_tree_files. by rewrite Hperm.
Qed.

(** ** A root named twice *)

(** [prepare_overlays] keys its result by root: a root given twice gets two
    overlays, the mapping keeps the second, and the first is never removed:
    the teardown theorem asks for distinct roots. *)
Example duplicate_root_keeps_first_overlay :
  let a := Args "img" [Examples.proj; Examples.proj] "dev" ["/bin/bash"] in
  let out := main Examples.E_ok a (initial_world Examples.fs0) in
  out.1 = Ret 7%Z ∧
  path_exists (w_fs out.2) ["tmp"; "proj_overlay_a"] = true ∧
  path_exists (w_fs out.2) ["tmp"; "proj_overlay_aaa"] = false.
Proof. vm_compute. by split_and!. Qed.

(** * Further properties of the code *)

(** ** Change reporter: [diff_hashes] *)

(** X2: [diff_hashes] reports a root exactly when [initial] holds it and
    [final] does not hold it with the same digest, which includes a root
    missing from [final]; a root that only [final] holds is never reported;
    no root is reported twice. *)
Theorem diff_hashes_reports (initial final : gmap string string) :
  NoDup (diff_hashes initial final) ∧
  ∀ k, k ∈ diff_hashes initial final ↔
       ∃ h, initial !! k = Some h ∧ final !! k ≠ Some h.
Proof.
  split; [|intros k; apply diff_hashes_elem].
  unfold diff_hashes. apply NoDup_omap_inj; [apply NoDup_map_to_list|].
  intros [k h] [k' h'] z Hin Hin'. simpl.
  apply elem_of_map_to_list in Hin. apply elem_of_map_to_list in Hin'.
  repeat case_decide; intros; simplify_eq. done.
Qed.

(** X3: [diff_hashes] returns the empty list exactly when every root of
    [initial] is in [final] with the same digest. *)
Theorem diff_hashes_nil_iff (initial final : gmap string string) :
  diff_hashes initial final = [] ↔ initial ⊆ final.
Proof.
  rewrite map_subseteq_spec. split.
  - intros Hnil k h Hk.
    destruct (decide (final !! k = Some h)) as [?|Hne]; [done|].
    assert (k ∈ diff_hashes initial final) as Hin
      by (apply diff_hashes_elem; eauto).
    rewrite Hnil in Hin. by apply elem_of_nil in Hin.
  - intros Hsub. apply elem_of_nil_inv. intros k Hin.
    apply diff_hashes_elem in Hin as (h & Hi & Hf). by apply Hf, Hsub.
Qed.

(** ** Change reporter: [diff_snapshots] *)

(** X4: the result of [diff_snapshots] is empty exactly when every root of
    [initial] has the same snapshot in [final], a root missing from [final]
    counting as the empty snapshot. *)
Theorem diff_snapshots_empty_iff (initial final : gmap string (gmap string string)) :
  diff_snapshots initial final = ∅ ↔
  ∀ root pre, initial !! root = Some pre → default ∅ (final !! root) = pre.
Proof.
  split.
  - intros Hempty root pre Hpre.
    pose proof (diff_snapshots_lookup initial final root) as Hl.
    rewrite Hempty, lookup_empty, Hpre in Hl.
    destruct (changed_files pre _) eqn:Hch; [|done].
    by apply changed_files_nil in Hch.
  - intros Hsame. apply map_eq. intros root.
    rewrite diff_snapshots_lookup, lookup_empty.
    destruct (initial !! root) as [pre|] eqn:Hpre; [|done].
    rewrite (Hsame root pre Hpre).
    by rewrite (proj2 (changed_files_nil pre pre) eq_refl).
Qed.

(** X5: for a root that [final] no longer holds, every file of its initial
    snapshot gets a [Removed] record and nothing else is written: as many
    records as files. *)
Theorem diff_snapshots_vanished_root (initial final : gmap string (gmap string string))
    (root : string) (pre : gmap string string) :
  initial !! root = Some pre →
  final !! root = None →
  pre ≠ ∅ →
  ∃ changed,
    diff_snapshots initial final !! root = Some changed ∧
    length changed = size pre ∧
    ∀ r, r ∈ changed ↔ ∃ f, is_Some (pre !! f) ∧ r = "Removed: " +:+ f.
Proof.
  intros Hpre Hfin Hne.
  assert (Hch : changed_files pre ∅ =
                (λ kv : string * string, "Removed: " +:+ kv.1) <$> map_to_list pre).
  { unfold changed_files. rewrite dom_empty_L.
    replace (∅ ∖ dom pre : gset string) with (∅ : gset string) by set_solver.
    rewrite elements_empty. simpl. rewrite app_nil_r.
    induction (map_to_list pre) as [|kv l IH]; [done|].
    cbn [omap list_omap fmap list_fmap]. rewrite lookup_empty. by f_equal. }
  exists (changed_files pre ∅). split_and!.
  - rewrite diff_snapshots_lookup, Hpre, Hfin. simpl.
    destruct (changed_files pre ∅) eqn:Hc; [|done].
    by apply changed_files_nil in Hc.
  - by rewrite Hch, length_fmap, length_map_to_list.
  - intros r. rewrite Hch, list_elem_of_fmap. split.
    + intros ([f d] & -> & Hin). apply elem_of_map_to_list in Hin. eauto.
    + intros (f & [d Hd] & ->). exists (f, d). split; [done|].
      by apply elem_of_map_to_list.
Qed.

Lemma diff_snapshots_vanished_root_witness :
  ∃ changed,
    diff_snapshots {[ "/r" := Examples.snap_pre ]} ∅ !! "/r" = Some changed ∧
    length changed = size Examples.snap_pre ∧
    ∀ r, r ∈ changed ↔ ∃ f, is_Some (Examples.snap_pre !! f) ∧ r = "Removed: " +:+ f.
Proof.
  apply (diff_snapshots_vanished_root {[ "/r" := Examples.snap_pre ]} ∅ "/r").
  - vm_compute. reflexivity.
  - vm_compute. reflexivity.
  - intros H. apply (f_equal (λ m : gmap string string, m !! "a")) in H.
    vm_compute in H. discriminate H.
Defined.

(** X6: swapping the two arguments of [diff_snapshots] swaps [Added] and
    [Removed] and keeps [Modified], for a root that both hold. *)
Theorem diff_snapshots_swap (initial final : gmap string (gmap string string))
    (root : string) (pre post : gmap string string) (file : string) :
  initial !! root = Some pre →
  final !! root = Some post →
  let forward := default [] (diff_snapshots initial final !! root) in
  let backward := default [] (diff_snapshots final initial !! root) in
  ("Added: " +:+ file ∈ forward ↔ "Removed: " +:+ file ∈ backward) ∧
  ("Removed: " +:+ file ∈ forward ↔ "Added: " +:+ file ∈ backward) ∧
  ("Modified: " +:+ file ∈ forward ↔ "Modified: " +:+ file ∈ backward).
Proof.
  intros Hpre Hpost forward backward.
  assert (Hf : forward = changed_files pre post).
  { unfold forward. rewrite diff_snapshots_lookup, Hpre, Hpost. simpl.
    by destruct (changed_files pre post). }
  assert (Hb : backward = changed_files post pre).
  { unfold backward. rewrite diff_snapshots_lookup, Hpre, Hpost. simpl.
    by destruct (changed_files post pre). }
  rewrite Hf, Hb, !changed_files_elem.
  split_and!; split; intros H;
    destruct H as [(f & d & ? & ? & ?)|[(f & d & d' & ? & ? & ? & ?)|(f & ? & [d ?] & ?)]];
    simplify_eq; eauto 10.
Qed.

Lemma diff_snapshots_swap_witness :
  let initial : gmap string (gmap string string) := {[ "/r" := Examples.snap_pre ]} in
  let final : gmap string (gmap string string) := {[ "/r" := Examples.snap_post ]} in
  let forward := default [] (diff_snapshots initial final !! "/r") in
  let backward := default [] (diff_snapshots final initial !! "/r") in
  ("Added: " +:+ "d" ∈ forward ↔ "Removed: " +:+ "d" ∈ backward) ∧
  ("Removed: " +:+ "d" ∈ forward ↔ "Added: " +:+ "d" ∈ backward) ∧
  ("Modified: " +:+ "d" ∈ forward ↔ "Modified: " +:+ "d" ∈ backward).
Proof.
  apply (diff_snapshots_swap {[ "/r" := Examples.snap_pre ]}
           {[ "/r" := Examples.snap_post ]} "/r" Examples.snap_pre Examples.snap_post "d").
  - vm_compute. reflexivity.
  - vm_compute. reflexivity.
Defined.

(** X7: [diff_snapshots] only looks at the roots of [initial]: a root that
    [final] alone holds never appears in the result, whatever it contains. *)
Theorem diff_snapshots_ignores_new_roots
    (initial final : gmap string (gmap string string)) (root : string) :
  initial !! root = None → diff_snapshots initial final !! root = None.
Proof. intros Hi. by rewrite diff_snapshots_lookup, Hi. Qed.

Lemma diff_snapshots_ignores_new_roots_witness :
  diff_snapshots ∅ {[ "/r" := Examples.snap_post ]} !! "/r" = None.
Proof. apply diff_snapshots_ignores_new_roots. vm_compute. reflexivity. Defined.

(** ** The per-root dictionaries *)

Lemma fold_insert_lookup_inv {V} (key : path → string) (val : path → V)
    (paths : list path) :
  ∀ (acc : gmap string V) k v,
    fold_left (λ m q, <[key q := val q]> m) paths acc !! k = Some v →
    (∃ p, p ∈ paths ∧ key p = k ∧ v = val p) ∨ acc !! k = Some v.
Proof.
  induction paths as [|q l IH]; intros acc k v Hl; simpl in Hl; [by right|].
  apply IH in Hl as [(p & Hp & Hk & Hv)|Hacc].
  - left. exists p. split; [by apply list_elem_of_further|done].
  - destruct (decide (key q = k)) as [Hq|Hq].
    + rewrite <- Hq, lookup_insert_eq in Hacc. injection Hacc as <-.
      left. exists q. split; [apply list_elem_of_here|done].
    + rewrite lookup_insert_ne in Hacc by done. by right.
Qed.

Lemma fold_insert_lookup_some {V} (key : path → string) (val : path → V)
    (paths : list path) (p : path) :
  p ∈ paths →
  ∀ acc : gmap string V,
    is_Some (fold_left (λ m q, <[key q := val q]> m) paths acc !! key p).
Proof.
  induction paths as [|q l IH] using rev_ind; intros Hin acc.
  { by apply elem_of_nil in Hin. }
  rewrite fold_left_app. simpl.
  destruct (decide (key q = key p)) as [Heq|Hne].
  - rewrite Heq, lookup_insert_eq. eauto.
  - rewrite lookup_insert_ne by done. apply IH.
    apply elem_of_app in Hin as [?|Hin]; [done|].
    apply elem_of_cons in Hin as [->|Hin]; [done|by apply elem_of_nil in Hin].
Qed.

(** X8: the dictionaries built by [compute_initial_hashes] and
    [snapshot_directories] have one key per given path, [str(p)], and
    nothing else; the value under a key is the fingerprint, or the
    snapshot, of one of the paths that print as that key. *)
Theorem per_root_dictionaries (fs : node) (paths : list path) :
  (∀ k, is_Some (compute_initial_hashes fs paths !! k) ↔
        ∃ p, p ∈ paths ∧ str_path p = k) ∧
  (∀ k h, compute_initial_hashes fs paths !! k = Some h →
          ∃ p, p ∈ paths ∧ str_path p = k ∧ h = merkle_hash fs p) ∧
  (∀ k, is_Some (snapshot_directories fs paths !! k) ↔
        ∃ p, p ∈ paths ∧ str_path p = k) ∧
  (∀ k s, snapshot_directories fs paths !! k = Some s →
          ∃ p, p ∈ paths ∧ str_path p = k ∧ s = snapshot_directory fs p).
Proof.
  unfold compute_initial_hashes, snapshot_directories. split_and!.
  - intros k. split.
    + intros [h Hh]. apply fold_insert_lookup_inv in Hh as [(p & ? & ? & ?)|Hh]; [eauto|].
      by rewrite lookup_empty in Hh.
    + intros (p & Hp & <-).
      by apply (fold_insert_lookup_some str_path (merkle_hash fs)).
  - intros k h Hh. apply fold_insert_lookup_inv in Hh as [?|Hh]; [done|].
    by rewrite lookup_empty in Hh.
  - intros k. split.
    + intros [h Hh]. apply fold_insert_lookup_inv in Hh as [(p & ? & ? & ?)|Hh]; [eauto|].
      by rewrite lookup_empty in Hh.
    + intros (p & Hp & <-).
      by apply (fold_insert_lookup_some str_path (snapshot_directory fs)).
  - intros k h Hh. apply fold_insert_lookup_inv in Hh as [?|Hh]; [done|].
    by rewrite lookup_empty in Hh.
Qed.

(** X9: on the dictionaries of the same list of roots in two states,
    [diff_hashes] reports a root exactly when its fingerprint differs, and
    [diff_snapshots] gives it records exactly when its snapshot differs
    (for a root that no other root of the list prints as). *)
Theorem diffs_report_changed_roots (fs fs' : node) (paths : list path) (p : path) :
  p ∈ paths →
  (∀ q, q ∈ paths → str_path q = str_path p → q = p) →
  (str_path p ∈ diff_hashes (compute_initial_hashes fs paths)
                            (compute_final_hashes fs' paths)
   ↔ merkle_hash fs p ≠ merkle_hash fs' p) ∧
  (is_Some (diff_snapshots (snapshot_directories fs paths)
                           (snapshot_directories fs' paths) !! str_path p)
   ↔ snapshot_directory fs p ≠ snapshot_directory fs' p).
Proof.
  intros Hin Huniq. split.
  - rewrite diff_hashes_elem.
    unfold compute_final_hashes, compute_initial_hashes.
    rewrite (fold_insert_lookup_last str_path (merkle_hash fs)) by done.
    rewrite (fold_insert_lookup_last str_path (merkle_hash fs')) by done.
    split.
    + intros (h & [= <-] & Hne) Heq. apply Hne. by rewrite Heq.
    + intros Hne. exists (merkle_hash fs p). split; [done|]. congruence.
  - rewrite diff_snapshots_lookup. unfold snapshot_directories.
    rewrite (fold_insert_lookup_last str_path (snapshot_directory fs)) by done.
    rewrite (fold_insert_lookup_last str_path (snapshot_directory fs')) by done.
    simpl. split.
    + intros [l Hl] Heq. rewrite <- Heq in Hl.
      by rewrite (proj2 (changed_files_nil _ _) eq_refl) in Hl.
    + intros Hne. destruct (changed_files _ _) eqn:Hch; [|eauto].
      by apply changed_files_nil in Hch.
Qed.

Lemma diffs_report_changed_roots_witness :
  (str_path ["r"] ∈ diff_hashes (compute_initial_hashes Examples.one [["r"]])
                                (compute_final_hashes Examples.two [["r"]])
   ↔ merkle_hash Examples.one ["r"] ≠ merkle_hash Examples.two ["r"]) ∧
  (is_Some (diff_snapshots (snapshot_directories Examples.one [["r"]])
                           (snapshot_directories Examples.two [["r"]]) !! str_path ["r"])
   ↔ snapshot_directory Examples.one ["r"] ≠ snapshot_directory Examples.two ["r"]).
Proof.
  apply (diffs_report_changed_roots Examples.one Examples.two [["r"]] ["r"]).
  - apply list_elem_of_here.
  - intros q Hq _. by apply list_elem_of_singleton in Hq.
Defined.

(** ** Hasher and snapshotter on nothing *)

(** X10: a directory that does not exist, a path that is a regular file and
    an empty directory all have the fingerprint of the empty message and the
    empty snapshot: [merkle_hash] and [snapshot_directory] cannot tell an
    emptied root from a deleted one, and neither raises. *)
Theorem nothing_to_walk (fs : node) (D : path) :
  match fs_lookup fs D with
  | Some (Dir (_ :: _)) => False
  | _ => True
  end →
  merkle_hash fs D =
    "e3b0c44298fc1c149afbf4c8996fb92427ae41e4649b934ca495991b7852b855" ∧
  snapshot_directory fs D = ∅.
Proof.
  intros Hshape. unfold merkle_hash, snapshot_directory, os_walk.
  destruct (fs_lookup fs D) as [[c|[|e es]]|]; try done.
Qed.

Lemma nothing_to_walk_witness :
  merkle_hash Examples.fs0 ["home"; "nope"] =
    "e3b0c44298fc1c149afbf4c8996fb92427ae41e4649b934ca495991b7852b855" ∧
  snapshot_directory Examples.fs0 ["home"; "nope"] = ∅.
Proof. apply nothing_to_walk. vm_compute. exact I. Defined.

(** ** Snapshotter: every file is in the snapshot *)





(** ** Overlay manager: what [cleanup_overlays] does *)

(** X12: [cleanup_overlays] runs [rm -rf] on the overlays in the order of
    [mapping.values()], the order in which the roots were first inserted,
    once each; an exit code other than 0 does not stop it, and it prints
    nothing.  It ends early only when [rm] cannot be started: the exception
    of that call goes through, and the overlays from that one on are left
    with no [rm -rf] run on them. *)
Theorem cleanup_overlays_best_effort (E : env) (m : dict) (w : world) :
  ∃ r w' evs removed,
    cleanup_overlays E m w = (r, w') ∧
    w_log w' = w_log w ++ evs ∧
    w_stdout w' = w_stdout w ∧ w_stderr w' = w_stderr w ∧
    Forall2 (λ e ov, ∃ rc, e = EvRm ov rc) evs removed ∧
    ((r = Ret tt ∧ removed = dict_values m) ∨
     (∃ e ov rest, r = Raise e ∧ dict_values m = removed ++ ov :: rest ∧
                   rm_run E w' ov = Raise e)).
Proof.
  unfold cleanup_overlays. revert w.
  induction (dict_values m) as [|p l IH]; intros w.
  - exists (Ret tt), w, [], []. simpl. munfold. rewrite app_nil_r.
    split_and!; try done. by left.
  - simpl. unfold bind. rewrite rm_rf_spec.
    destruct (rm_run E w p) as [rc|e] eqn:Hrm.
    2:{ exists (Raise e), w, [], []. rewrite app_nil_r. split_and!; try done.
        right. by exists e, p, l. }
    match goal with |- context [for_each (rm_rf E) l ?w1] =>
      destruct (IH w1) as (r & w' & evs & removed & Hrun & Hlog & Hout & Herr & Hall & Hend)
    end.
    simpl in Hlog, Hout, Herr.
    exists r, w', (EvRm p rc :: evs), (p :: removed). rewrite Hrun.
    split_and!; try done.
    + by rewrite Hlog, <- app_assoc.
    + constructor; [eauto|done].
    + destruct Hend as [[-> ->]|(e & ov & rest & -> & -> & Hraise)]; [by left|].
      right. by exists e, ov, rest.
Qed.

(** ** Overlay manager: what [prepare_overlays] returns *)

Lemma prepare_values_distinct (E : env) (paths : list path) :
  ∀ (m : dict) (w : world) (m' : dict) (w' : world),
  prepare_overlays_from E m paths w = (Ret m', w') →
  (∀ p ov, m !! p = Some ov →
           is_Some (fs_lookup (w_fs w) ov) ∧ ¬ ov `prefix_of` tmpdir E) →
  (∀ p1 p2 ov, m !! p1 = Some ov → m !! p2 = Some ov → p1 = p2) →
  ∀ p1 p2 ov, m' !! p1 = Some ov → m' !! p2 = Some ov → p1 = p2.
Proof.
  induction paths as [|p0 rest IH]; intros m w m' w' Hrun Hex Hinj.
  { simpl in Hrun. munfold. by injection Hrun as <- <-. }
  apply prepare_cons in Hrun as [(e & ? & _)|(name & rc & Hfresh & Hdir & Hcase)];
    [done|].
  simpl in Hcase.
  destruct Hcase as [(_ & ? & _)|(-> & es & Hsrc & Hrest)]; [done|].
  apply (IH _ _ _ _ Hrest).
  - intros p ov Hp. destruct (decide (p0 = p)) as [->|Hne].
    + rewrite dict_lookup_insert_eq in Hp. injection Hp as <-. simpl. split.
      * rewrite fs_put_exists; [eauto|].
        unfold fs_mkdir. by rewrite path_is_dir_alter_parent.
      * apply overlay_not_above_tmpdir.
    + rewrite dict_lookup_insert_ne in Hp by done.
      destruct (Hex p ov Hp) as [Hs Hnp]. split; [|done]. simpl.
      by rewrite (proj2 (overlay_step_frame (tmpdir E) name (Dir es) ov (w_fs w)
                           Hfresh Hs Hnp)).
  - intros p1 p2 ov H1 H2.
    destruct (decide (p0 = p1)) as [Heq1|Hne1]; destruct (decide (p0 = p2)) as [Heq2|Hne2].
    + congruence.
    + rewrite <- Heq1, dict_lookup_insert_eq in H1. injection H1 as <-.
      rewrite dict_lookup_insert_ne in H2 by done.
      destruct (Hex p2 _ H2) as [[x Hx] _]. congruence.
    + rewrite <- Heq2, dict_lookup_insert_eq in H2. injection H2 as <-.
      rewrite dict_lookup_insert_ne in H1 by done.
      destruct (Hex p1 _ H1) as [[x Hx] _]. congruence.
    + rewrite dict_lookup_insert_ne in H1, H2 by done. by eapply Hinj.
Qed.

(** X13: when [prepare_overlays] returns, its mapping has exactly the given
    roots as keys; each overlay is a child of the temporary directory that
    did not exist before the call and is a directory after it; and two
    different roots never share an overlay. *)
Theorem prepare_overlays_mapping (E : env) (paths : list path) (w : world)
    (m : dict) (w' : world) :
  prepare_overlays E paths w = (Ret m, w') →
  (∀ p, is_Some (m !! p) ↔ p ∈ paths) ∧
  (∀ (p ov : path), m !! p = Some ov →
           (∃ name, ov = tmpdir E ++ [name]) ∧
           fs_lookup (w_fs w) ov = None ∧
           path_is_dir (w_fs w') ov = true) ∧
  (∀ p1 p2 ov, m !! p1 = Some ov → m !! p2 = Some ov → p1 = p2).
Proof.
  intros Hrun. pose proof Hrun as Hrun'.
  apply prepare_spec in Hrun as (evs & _ & _ & _ & _ & Hcre & _ & _ & Hok).
  destruct (Hok m eq_refl) as (Hout & Hin & _ & _).
  assert (Hkeys : ∀ p, is_Some (m !! p) ↔ p ∈ paths).
  { intros p. split.
    - intros [ov Hov]. destruct (decide (p ∈ paths)) as [?|Hn]; [done|].
      rewrite (Hout p Hn), dict_lookup_empty in Hov. done.
    - intros Hp. destruct (Hin p Hp) as (ov & -> & _). eauto. }
  split_and!; [done| |].
  - intros p ov Hov.
    assert (Hp : p ∈ paths) by (apply Hkeys; eauto).
    destruct (Hin p Hp) as (ov' & Hov' & Hmk).
    assert (ov' = ov) as -> by congruence.
    destruct (Hcre ov Hmk) as (Hd & [name ->] & Hap). split_and!; [eauto| |done].
    destruct (fs_lookup (w_fs w) (tmpdir E ++ [name])) as [x|] eqn:Hx; [|done].
    destruct (Hap (tmpdir E ++ [name])) as [Hself _];
      [by rewrite Hx|apply overlay_not_above_tmpdir|].
    by destruct Hself.
  - apply (prepare_values_distinct E paths ∅ w m w' Hrun'); intros *;
      by rewrite dict_lookup_empty.
Qed.

Lemma prepare_overlays_mapping_witness :
  (∀ p, is_Some (Dict [ (Examples.proj, ["tmp"; "proj_overlay_a"]);
                        (Examples.docs, ["tmp"; "docs_overlay_aaa"]) ] !! p)
        ↔ p ∈ [Examples.proj; Examples.docs]) ∧
  (∀ (p ov : path),
     Dict [ (Examples.proj, ["tmp"; "proj_overlay_a"]);
            (Examples.docs, ["tmp"; "docs_overlay_aaa"]) ] !! p = Some ov →
     (∃ name, ov = tmpdir Examples.E_ok ++ [name]) ∧
     fs_lookup (w_fs (initial_world Examples.fs0)) ov = None ∧
     path_is_dir (w_fs (prepare_overlays Examples.E_ok [Examples.proj; Examples.docs]
                          (initial_world Examples.fs0)).2) ov = true) ∧
  (∀ p1 p2 ov,
     Dict [ (Examples.proj, ["tmp"; "proj_overlay_a"]);
            (Examples.docs, ["tmp"; "docs_overlay_aaa"]) ] !! p1 = Some ov →
     Dict [ (Examples.proj, ["tmp"; "proj_overlay_a"]);
            (Examples.docs, ["tmp"; "docs_overlay_aaa"]) ] !! p2 = Some ov →
     p1 = p2).
Proof.
  apply (prepare_overlays_mapping Examples.E_ok [Examples.proj; Examples.docs]
           (initial_world Examples.fs0)).
  vm_compute. reflexivity.
Defined.

(** ** Overlay manager: the order of the mapping *)

Lemma assoc_set_fresh (k v : path) (l : list (path * path)) :
  assoc_get k l = None → assoc_set k v l = l ++ [(k, v)].
Proof.
  induction l as [|[k' v'] l IH]; simpl; [done|].
  destruct (decide (k' = k)); [done|]. intros Hl. by rewrite IH.
Qed.

Lemma assoc_get_index (l : list (path * path)) (i : nat) (k v : path) :
  NoDup l.*1 → l !! i = Some (k, v) → assoc_get k l = Some v.
Proof.
  revert i. induction l as [|[k' v'] l IH]; intros i Hnd Hi; [done|].
  simpl in Hnd. apply NoDup_cons in Hnd as [Hk' Hnd]. simpl.
  destruct i as [|i]; simpl in Hi.
  - injection Hi as -> ->. by rewrite decide_True.
  - destruct (decide (k' = k)) as [->|Hne]; [|by eapply IH].
    destruct Hk'. apply list_elem_of_fmap. exists (k, v). split; [done|].
    by eapply list_elem_of_lookup_2.
Qed.

Lemma prepare_keys (E : env) (paths : list path) :
  ∀ (m : dict) (w : world) (m' : dict) (w' : world),
  prepare_overlays_from E m paths w = (Ret m', w') →
  NoDup paths →
  (∀ p, p ∈ paths → m !! p = None) →
  (dict_items m').*1 = (dict_items m).*1 ++ paths.
Proof.
  induction paths as [|p0 rest IH]; intros m w m' w' Hrun Hnd Hfresh.
  { simpl in Hrun. munfold. injection Hrun as <- <-. by rewrite app_nil_r. }
  apply prepare_cons in Hrun as [(e & ? & _)|(name & rc & _ & _ & Hcase)]; [done|].
  simpl in Hcase.
  destruct Hcase as [(_ & ? & _)|(-> & es & _ & Hrest)]; [done|].
  apply NoDup_cons in Hnd as [Hp0 Hnd].
  rewrite (IH _ _ _ _ Hrest Hnd).
  - unfold insert, dict_insert. simpl.
    rewrite assoc_set_fresh by (apply (Hfresh p0), list_elem_of_here).
    rewrite fmap_app, <- app_assoc. done.
  - intros p Hp. rewrite dict_lookup_insert_ne by (by intros ->).
    by apply Hfresh, list_elem_of_further.
Qed.

(** X23: for pairwise distinct roots, the mapping that [prepare_overlays]
    returns lists the roots in the order they were given, and the i-th of
    [mapping.values()] is the overlay of the i-th root: the mounts of the
    sandbox and the removals of the teardown follow the order of the roots. *)
Theorem prepare_overlays_keeps_order (E : env) (paths : list path) (w : world)
    (m : dict) (w' : world) :
  NoDup paths →
  prepare_overlays E paths w = (Ret m, w') →
  (dict_items m).*1 = paths ∧
  length (dict_values m) = length paths ∧
  ∀ (i : nat) (p : path), paths !! i = Some p →
    ∃ ov, dict_values m !! i = Some ov ∧ m !! p = Some ov.
Proof.
  intros Hnd Hrun.
  assert (Hkeys : (dict_items m).*1 = paths).
  { apply (prepare_keys E paths ∅ w m w' Hrun Hnd). intros p _.
    apply dict_lookup_empty. }
  split_and!; [done| |].
  - unfold dict_values. by rewrite length_fmap, <- Hkeys, length_fmap.
  - intros i p Hi. rewrite <- Hkeys in Hi, Hnd.
    apply list_lookup_fmap_Some in Hi as ([k ov] & Hk & Hkv). simpl in Hk. subst p.
    exists ov. split.
    + unfold dict_values. by rewrite list_lookup_fmap, Hkv.
    + unfold lookup, dict_lookup. by eapply assoc_get_index.
Qed.

Lemma prepare_overlays_keeps_order_witness :
  (dict_items (Dict [ (Examples.proj, ["tmp"; "proj_overlay_a"]);
                      (Examples.docs, ["tmp"; "docs_overlay_aaa"]) ])).*1
    = [Examples.proj; Examples.docs] ∧
  length (dict_values (Dict [ (Examples.proj, ["tmp"; "proj_overlay_a"]);
                              (Examples.docs, ["tmp"; "docs_overlay_aaa"]) ]))
    = length [Examples.proj; Examples.docs] ∧
  ∀ (i : nat) (p : path), [Examples.proj; Examples.docs] !! i = Some p →
    ∃ ov, dict_values (Dict [ (Examples.proj, ["tmp"; "proj_overlay_a"]);
                              (Examples.docs, ["tmp"; "docs_overlay_aaa"]) ]) !! i
          = Some ov ∧
          Dict [ (Examples.proj, ["tmp"; "proj_overlay_a"]);
                 (Examples.docs, ["tmp"; "docs_overlay_aaa"]) ] !! p = Some ov.
Proof.
  apply (prepare_overlays_keeps_order Examples.E_ok [Examples.proj; Examples.docs]
           (initial_world Examples.fs0) _
           (prepare_overlays Examples.E_ok [Examples.proj; Examples.docs]
              (initial_world Examples.fs0)).2).
  - apply NoDup_cons. split; [|apply NoDup_singleton].
    intros H. apply list_elem_of_singleton in H. discriminate H.
  - vm_compute. reflexivity.
Defined.

(** ** [main], step by step *)


Lemma find_bad_none_inv (fs : node) (l : list path) (p : path) :
  find (bad_edit_path fs) l = None → p ∈ l → path_is_dir fs p = true.
Proof.
  intros Hfind Hin.
  pose proof (find_none _ _ Hfind p (proj1 (list_elem_of_In _ _) Hin)) as Hb.
  unfold bad_edit_path in Hb. apply orb_false_elim in Hb as [_ Hb].
  by apply negb_false_iff in Hb.
Qed.

(** X14: a session leaves every editable root as it found it, as long as
    the sandbox itself does not touch the root and the root is neither the
    temporary directory nor one of its ancestors: copying into the overlays,
    the report and the removal of the overlays never change it, on every
    path through [main], raising ones included. *)
Theorem main_preserves_root (E : env) (a : args) (w : world) (r : result Z)
    (w' : world) (R : path) :
  R ∈ a_edit a →
  ¬ R `prefix_of` tmpdir E →
  (∀ w0 cmd, fs_lookup (outcome_fs (docker_run E w0 cmd)) R = fs_lookup (w_fs w0) R) →
  main E a w = (r, w') →
  fs_lookup (w_fs w') R = fs_lookup (w_fs w) R.
Proof.
  intros HR Hnp Hhonest Hrun.
  destruct (find (bad_edit_path (w_fs w)) (a_edit a)) as [q|] eqn:Hfind.
  { unfold main in Hrun. unfold bind at 1 in Hrun. unfold get_world at 1 in Hrun.
    rewrite Hfind in Hrun. munfold. by injection Hrun as <- <-. }
  assert (HRs : is_Some (fs_lookup (w_fs w) R)).
  { apply path_is_dir_Some. by eapply find_bad_none_inv. }
  destruct (prepare_overlays E (a_edit a) w) as [[m|e] wp] eqn:Hprep.
  2:{ unfold main in Hrun. unfold bind at 1 in Hrun. unfold get_world at 1 in Hrun.
      rewrite Hfind in Hrun. unfold bind at 1 in Hrun. rewrite Hprep in Hrun.
      injection Hrun as <- <-.
      apply prepare_spec in Hprep as (evs & _ & _ & _ & _ & _ & Hframe & _).
      by apply Hframe. }
  pose proof (main_after_prepare E a w m wp r w' Hfind Hprep Hrun) as Hcases.
  cbv zeta in Hcases.
  apply prepare_spec in Hprep as (evs & _ & _ & _ & _ & Hcre & Hframe & _ & Hok).
  destruct (Hok m eq_refl) as (_ & _ & _ & _ & Hvals).
  assert (Hapart : ∀ ov, ov ∈ dict_values m → ¬ ov `prefix_of` R ∧ ¬ R `prefix_of` ov).
  { intros ov Hov. destruct (Hvals ov Hov) as [Hov'|Hmk];
      [by apply elem_of_nil in Hov'|].
    destruct (Hcre ov Hmk) as (_ & _ & Hap). by apply Hap. }
  destruct Hcases as [(e & -> & -> & _)|[(e & fs' & Hd & -> & ->)|(rc & fs' & Hd & Hcase)]].
  - by apply Hframe.
  - simpl. match type of Hd with docker_run E ?w0 ?cmd = _ =>
      pose proof (Hhonest w0 cmd) as Hh; rewrite Hd in Hh end.
    simpl in Hh. rewrite Hh. by apply Hframe.
  - match type of Hd with docker_run E ?w0 ?cmd = _ =>
      pose proof (Hhonest w0 cmd) as Hh; rewrite Hd in Hh end.
    simpl in Hh.
    destruct Hcase as [(e & -> & -> & _)|[(e & Hcl & ->)|(w3 & Hcl & -> & Hrep)]].
    + simpl. rewrite Hh. by apply Hframe.
    + unfold cleanup_overlays in Hcl.
      apply cleanup_spec in Hcl as (rms & _ & _ & _ & _ & _ & _ & Hfr & _).
      rewrite (Hfr R Hapart). simpl. rewrite Hh. by apply Hframe.
    + unfold cleanup_overlays in Hcl.
      apply cleanup_spec in Hcl as (rms & _ & _ & _ & _ & _ & _ & Hfr & _).
      match type of Hrep with report ?c ?fc w3 = _ =>
        destruct (report_ok c fc w3) as [out Hrep']; rewrite Hrep' in Hrep end.
      injection Hrep as <-. simpl.
      rewrite (Hfr R Hapart). simpl. rewrite Hh. by apply Hframe.
Qed.

Lemma main_preserves_root_witness :
  fs_lookup (w_fs (main Examples.E_ok Examples.a_proj (initial_world Examples.fs0)).2)
            Examples.proj
  = fs_lookup (w_fs (initial_world Examples.fs0)) Examples.proj.
Proof.
  apply (main_preserves_root Examples.E_ok Examples.a_proj (initial_world Examples.fs0)
           (main Examples.E_ok Examples.a_proj (initial_world Examples.fs0)).1).
  - apply list_elem_of_here.
  - intros [k Hk]. discriminate Hk.
  - intros w0 cmd. unfold Examples.E_ok, Examples.sandbox.
    cbn [docker_run outcome_fs]. unfold fs_put. apply fs_lookup_alter_ne.
    + intros [k Hk]. discriminate Hk.
    + intros [k Hk]. discriminate Hk.
  - by destruct (main _ _ _).
Defined.

(** X15: the external calls of a session come in three phases: first the
    mkdtemp and rsync calls of [prepare_overlays], then at most one call of
    the sandbox runtime, then the [rm -rf] calls; there is no removal unless
    the sandboxed command exited, and no sandbox call when validation or
    [prepare_overlays] failed. *)
Theorem main_call_order (E : env) (a : args) (w : world) (r : result Z) (w' : world) :
  w_log w = [] →
  main E a w = (r, w') →
  ∃ prep dock rms,
    w_log w' = prep ++ dock ++ rms ∧
    Forall (λ e, is_prepare_event e = true) prep ∧
    Forall (λ e, is_docker_event e = true) dock ∧
    Forall (λ e, is_rm_event e = true) rms ∧
    length dock ≤ 1 ∧
    (rms ≠ [] → ∃ cmd rc, dock = [EvDocker cmd (Some rc)]) ∧
    (dock ≠ [] →
       (∀ p, p ∈ a_edit a → path_is_dir (w_fs w) p = true) ∧
       ∃ m wp, prepare_overlays E (a_edit a) w = (Ret m, wp)).
Proof.
  intros Hlog0 Hrun.
  assert (Hvalid : ∀ q, find (bad_edit_path (w_fs w)) (a_edit a) = Some q →
                        r = Ret 1%Z ∧ w' = World (w_fs w) (w_stdout w)
                          (w_stderr w ++ ["Editable path " +:+ str_path q +:+
                                          " does not exist or is not a directory."])
                          (w_log w)).
  { intros q Hq. unfold main in Hrun. unfold bind at 1 in Hrun.
    unfold get_world at 1 in Hrun. rewrite Hq in Hrun. munfold.
    by injection Hrun as <- <-. }
  destruct (find (bad_edit_path (w_fs w)) (a_edit a)) as [q|] eqn:Hfind.
  { destruct (Hvalid q eq_refl) as [-> ->]. exists [], [], []. simpl.
    rewrite Hlog0. split_and!; try done. lia. }
  clear Hvalid.
  apply main_cases in Hrun
    as [(_ & _ & Hl & _)|(rp & wp & Hprep & [(e & -> & -> & ->)|(m & -> & Hcase)])].
  - exists [], [], []. rewrite Hl, Hlog0. split_and!; try done. simpl. lia.
  - apply prepare_spec in Hprep as (evs & Hl & _ & _ & Hevs & _).
    exists evs, [], []. rewrite Hl, Hlog0, app_nil_r. split_and!; try done. simpl. lia.
  - pose proof Hprep as Hp.
    apply prepare_spec in Hprep as (evs & Hl & _ & _ & Hevs & _).
    rewrite Hlog0 in Hl. simpl in Hl, Hcase.
    assert (Hdirs : ∀ p, p ∈ a_edit a → path_is_dir (w_fs w) p = true)
      by (intros p Hp'; by eapply find_bad_none_inv).
    destruct Hcase as [(e & -> & ->)|[(e & -> & Hl')|(rc & rms & Hl' & Hrms & _)]].
    + exists evs, [], []. rewrite Hl, app_nil_r. split_and!; try done. simpl. lia.
    + eexists evs, [_], []. rewrite Hl', Hl. split_and!; try done.
      * by repeat constructor.
      * intros _. eauto.
    + eexists evs, [_], rms. rewrite Hl', Hl. split_and!; try done.
      * by repeat constructor.
      * intros _. eauto.
      * intros _. eauto.
Qed.

Lemma main_call_order_witness :
  ∃ prep dock rms,
    w_log (main Examples.E_ok Examples.a_proj (initial_world Examples.fs0)).2
      = prep ++ dock ++ rms ∧
    Forall (λ e, is_prepare_event e = true) prep ∧
    Forall (λ e, is_docker_event e = true) dock ∧
    Forall (λ e, is_rm_event e = true) rms ∧
    length dock ≤ 1 ∧
    (rms ≠ [] → ∃ cmd rc, dock = [EvDocker cmd (Some rc)]) ∧
    (dock ≠ [] →
       (∀ p, p ∈ a_edit Examples.a_proj →
             path_is_dir (w_fs (initial_world Examples.fs0)) p = true) ∧
       ∃ m wp, prepare_overlays Examples.E_ok (a_edit Examples.a_proj)
                 (initial_world Examples.fs0) = (Ret m, wp)).
Proof.
  apply (main_call_order Examples.E_ok Examples.a_proj (initial_world Examples.fs0)
           (main Examples.E_ok Examples.a_proj (initial_world Examples.fs0)).1).
  - reflexivity.
  - by destruct (main _ _ _).
Defined.

(** X16: whatever command line reaches the sandbox runtime was built by
    [build_docker_cmd] from the session's image, user and command, and
    every path it mounts is an overlay created in this session: a child of
    the temporary directory that did not exist when [main] started.  No
    original root is ever handed to the sandbox. *)
Theorem sandbox_mounts_only_overlays (E : env) (a : args) (w : world)
    (r : result Z) (w' : world) (cmd : list string) (o : option Z) :
  w_log w = [] →
  main E a w = (r, w') →
  EvDocker cmd o ∈ w_log w' →
  ∃ ovs : list path,
    cmd = build_docker_cmd (a_image a) ovs (a_command a) (a_user a) ∧
    ∀ ov, ov ∈ ovs →
          EvMkdtemp ov ∈ w_log w' ∧
          (∃ name, ov = tmpdir E ++ [name]) ∧
          fs_lookup (w_fs w) ov = None.
Proof.
  intros Hlog0 Hrun Hev.
  apply main_cases in Hrun
    as [(_ & _ & Hl & _)|(rp & wp & Hprep & [(e & -> & -> & ->)|(m & -> & Hcase)])].
  - rewrite Hl, Hlog0 in Hev. by apply elem_of_nil in Hev.
  - apply prepare_spec in Hprep as (evs & Hl & _ & _ & Hevs & _).
    rewrite Hl, Hlog0 in Hev. simpl in Hev.
    by pose proof (prepare_event_in _ _ Hevs Hev).
  - apply prepare_spec in Hprep as (evs & Hl & _ & _ & Hevs & Hcre & _ & _ & Hok).
    rewrite Hlog0 in Hl. simpl in Hl, Hcase.
    destruct (Hok m eq_refl) as (_ & _ & _ & _ & Hvals).
    assert (Hcmd : cmd = build_docker_cmd (a_image a) (dict_values m)
                           (a_command a) (a_user a) ∧
                   ∃ rest, w_log w' = evs ++ rest).
    { destruct Hcase as [(e & -> & ->)|[(e & -> & Hl')|(rc & rms & Hl' & Hrms & _)]].
      - rewrite Hl in Hev. by pose proof (prepare_event_in _ _ Hevs Hev).
      - rewrite Hl', Hl in Hev |- *. split; [|eauto].
        apply elem_of_app in Hev as [Hev|Hev];
          [by pose proof (prepare_event_in _ _ Hevs Hev)|].
        apply elem_of_cons in Hev as [[= -> _]|Hev]; [done|by apply elem_of_nil in Hev].
      - rewrite Hl', Hl in Hev |- *. split; [|eauto].
        apply elem_of_app in Hev as [Hev|Hev];
          [by pose proof (prepare_event_in _ _ Hevs Hev)|].
        apply elem_of_cons in Hev as [[= -> _]|Hev]; [done|].
        by pose proof (rm_event_in _ _ Hrms Hev). }
    destruct Hcmd as [-> [rest Hrest]].
    exists (dict_values m). split; [done|].
    intros ov Hov. destruct (Hvals ov Hov) as [Hov'|Hmk];
      [by apply elem_of_nil in Hov'|].
    destruct (Hcre ov Hmk) as (_ & [name ->] & Hap). split_and!; [|eauto|].
    + rewrite Hrest. apply elem_of_app. by left.
    + destruct (fs_lookup (w_fs w) (tmpdir E ++ [name])) as [x|] eqn:Hx; [|done].
      destruct (Hap (tmpdir E ++ [name])) as [Hself _];
        [by rewrite Hx|apply overlay_not_above_tmpdir|].
      by destruct Hself.
Qed.

Lemma sandbox_mounts_only_overlays_witness :
  ∃ ovs : list path,
    build_docker_cmd "img" [["tmp"; "proj_overlay_a"]] ["/bin/bash"] "dev"
    = build_docker_cmd (a_image Examples.a_proj) ovs (a_command Examples.a_proj)
                       (a_user Examples.a_proj) ∧
    ∀ ov, ov ∈ ovs →
          EvMkdtemp ov ∈
            w_log (main Examples.E_nolaunch Examples.a_proj
                     (initial_world Examples.fs0)).2 ∧
          (∃ name, ov = tmpdir Examples.E_nolaunch ++ [name]) ∧
          fs_lookup (w_fs (initial_world Examples.fs0)) ov = None.
Proof.
  apply (sandbox_mounts_only_overlays Examples.E_nolaunch Examples.a_proj
           (initial_world Examples.fs0)
           (main Examples.E_nolaunch Examples.a_proj (initial_world Examples.fs0)).1
           _ _ None).
  - reflexivity.
  - by destruct (main _ _ _).
  - vm_compute. apply list_elem_of_In. simpl. auto.
Defined.

(** ** [main]: what is printed *)

Lemma diff_hashes_same (m : gmap string string) : diff_hashes m m = [].
Proof.
  apply elem_of_nil_inv. intros k Hk.
  apply diff_hashes_elem in Hk as (h & Hi & Hf). done.
Qed.




(** The launch line of that session: the overlay of the first root is
    mounted first. *)
Example launch_line_mounts_in_insertion_order :
  nth 1 (w_stdout (main Examples.E_idle
                     (Args "img" [Examples.proj; Examples.docs] "dev" ["/bin/bash"])
                     (initial_world Examples.fs0)).2) "" = "No changes detected." ∧
  dict_values (Dict [ (Examples.proj, ["tmp"; "proj_overlay_a"]);
                      (Examples.docs, ["tmp"; "docs_overlay_aaa"]) ])
  = [["tmp"; "proj_overlay_a"]; ["tmp"; "docs_overlay_aaa"]].
Proof. vm_compute. by split. Qed.

(** X18: with no editable path at all, [main] creates nothing and removes
    nothing: it launches the sandbox with no mount, prints "No changes
    detected." when the command exits and returns its exit code; when the
    launch raises, the exception goes through. *)
Theorem main_without_editable_paths (E : env) (a : args) (w : world) :
  a_edit a = [] →
  main E a w =
  match docker_run E
          (World (w_fs w)
             (w_stdout w ++ [launch_line (build_docker_cmd (a_image a) []
                                            (a_command a) (a_user a))])
             (w_stderr w) (w_log w))
          (build_docker_cmd (a_image a) [] (a_command a) (a_user a)) with
  | Exited rc fs' =>
      (Ret rc,
       World fs'
         (w_stdout w ++ [launch_line (build_docker_cmd (a_image a) []
                                        (a_command a) (a_user a));
                         "No changes detected."])
         (w_stderr w)
         (w_log w ++ [EvDocker (build_docker_cmd (a_image a) [] (a_command a) (a_user a))
                               (Some rc)]))
  | Failed e fs' =>
      (Raise e,
       World fs'
         (w_stdout w ++ [launch_line (build_docker_cmd (a_image a) []
                                        (a_command a) (a_user a))])
         (w_stderr w)
         (w_log w ++ [EvDocker (build_docker_cmd (a_image a) [] (a_command a) (a_user a))
                               None]))
  end.
Proof.
  intros Hedit. unfold main, prepare_overlays. rewrite Hedit.
  unfold compute_final_hashes_io, compute_initial_hashes_io, snapshot_directories_io,
    cleanup_overlays.
  unfold bind, get_world. cbn [List.find prepare_overlays_from]. unfold ret.
  change (dict_values ∅) with (@nil path). cbn [mapM for_each]. unfold ret.
  rewrite run_container_spec. cbv zeta. unfold launch_line.
  destruct (docker_run E _ _) as [rc fs'|e fs']; [|done].
  cbn [fold_left]. rewrite diff_hashes_same. simpl. unfold print. simpl.
  by rewrite <- app_assoc.
Qed.

Lemma main_without_editable_paths_witness :
  (main Examples.E_ok (Args "img" [] "dev" ["/bin/bash"])
     (initial_world Examples.fs0)).1 = Ret 7%Z.
Proof.
  rewrite (main_without_editable_paths Examples.E_ok (Args "img" [] "dev" ["/bin/bash"])
             (initial_world Examples.fs0) eq_refl).
  reflexivity.
Defined.

(** ** From a change of the tree to the records *)

Local Arguments hash_file : simpl never.
Local Arguments tree_snapshot : simpl never.












(** ** A file created or deleted between the two snapshots *)













